(** * A directory-backed content-addressable store (package [storage])

    Shallow embedding of [storage/repository.go]: identifiers and their hex
    text, alias names, and the [Dir] repository whose operations run against
    a model of the file system.

    Modelling conventions.
    - A Go [[]byte] is a [list byte]; a Go [string] is a [string] (a sequence
      of 8-bit characters), and [[]byte(s)] is [list_byte_of_string s].
    - A Go path string is represented by what it denotes for a process whose
      working directory is the file-system root, without symbolic links:
      [None] for the empty string (which names no file) and otherwise the
      list of components left after [path.Clean].
    - The file system is a finite map from such component lists to nodes
      (directories and regular files); permissions, symbolic links and
      limits on the length of a file name are not part of it.
    - One process runs at a time: an open file is its path, and the trees
      an observer could see are those between two system calls, which the
      world records in [history].
    - Operations of the Go standard library ([encoding/hex], [net/url],
      [path], [os], [io], [io/ioutil]) are modelled from their documented
      behaviour; environmental failures (permissions, full disk, ...) are
      driven by a schedule of faults carried by the world state. *)

From Stdlib Require Import NArith Lia String Ascii Strings.Byte DecimalString.
From stdpp Require Import base option list gmap strings.

Local Open Scope string_scope.
Local Open Scope list_scope.

Abbreviation byte := Byte.byte.

#[global] Instance byte_eq_dec : EqDecision byte := Byte.byte_eq_dec.

(** ** Errors *)

Inductive errno :=
  | ENOENT | ENOTDIR | EISDIR | EEXIST | ENOTEMPTY | EBUSY | EBADF | EINVAL
  | EACCES | EIO | ENOSPC | EXDEV | EMFILE.

(** Failures the environment may inflict on a system call whatever the
    state of the directory tree. *)
Inductive fault := FAccess | FIo | FNoSpace | FCrossDevice | FTooManyFiles.

Definition errno_of_fault (f : fault) : errno :=
  match f with
  | FAccess => EACCES
  | FIo => EIO
  | FNoSpace => ENOSPC
  | FCrossDevice => EXDEV
  | FTooManyFiles => EMFILE
  end.

(** Go [error] values that the package can return. *)
Inductive error :=
  | PathError (op : string) (e : errno)          (* *os.PathError *)
  | LinkError (op : string) (e : errno)          (* *os.LinkError *)
  | ErrIDDoesNotExist                            (* storage.ErrIDDoesNotExist *)
  | io_EOF
  | io_ErrUnexpectedEOF
  | hex_InvalidByteError (b : byte)
  | hex_ErrLength
  | os_ErrInvalid
  | ReaderError (msg : string).                  (* failure of a caller's io.Reader *)

Definition os_IsNotExist (e : error) : bool :=
  match e with
  | PathError _ ENOENT | LinkError _ ENOENT => true
  | _ => false
  end.

(** The error taxonomy of the design: absence, constraint violation,
    malformed or truncated hex text, and everything else. *)
Inductive error_class := NotFoundError | ConstraintError | CorruptDataError | IOError.

Definition classify (e : error) : error_class :=
  match e with
  | ErrIDDoesNotExist => ConstraintError
  | io_EOF | io_ErrUnexpectedEOF | hex_InvalidByteError _ | hex_ErrLength => CorruptDataError
  | _ => if os_IsNotExist e then NotFoundError else IOError
  end.

(** ** encoding/hex *)

Definition hextable : string := "0123456789abcdef".
Definition upperhex : string := "0123456789ABCDEF".

Definition table_at (t : string) (i : N) : ascii :=
  match String.get (N.to_nat i) t with
  | Some c => c
  | None => "0"%char
  end.

Fixpoint hex_EncodeToString (src : list byte) : string :=
  match src with
  | [] => ""
  | v :: rest =>
      String (table_at hextable (N.shiftr (Byte.to_N v) 4))
        (String (table_at hextable (N.land (Byte.to_N v) 15))
           (hex_EncodeToString rest))
  end.

Definition in_range (lo hi n : N) : bool := (lo <=? n)%N && (n <=? hi)%N.

Definition fromHexChar (c : byte) : option N :=
  let n := Byte.to_N c in
  if in_range 48 57 n then Some (n - 48)%N            (* '0'..'9' *)
  else if in_range 97 102 n then Some (n - 97 + 10)%N (* 'a'..'f' *)
  else if in_range 65 70 n then Some (n - 65 + 10)%N  (* 'A'..'F' *)
  else None.

Definition byte_of_N (n : N) : byte :=
  match Byte.of_N n with
  | Some b => b
  | None => x00
  end.

(** [hex.Decode]: the bytes decoded and the error, if any.  An invalid
    character is reported before a bad length. *)
Fixpoint hex_Decode (src : list byte) : list byte * option error :=
  match src with
  | [] => ([], None)
  | p :: [] =>
      match fromHexChar p with
      | None => ([], Some (hex_InvalidByteError p))
      | Some _ => ([], Some hex_ErrLength)
      end
  | p :: q :: rest =>
      match fromHexChar p with
      | None => ([], Some (hex_InvalidByteError p))
      | Some a =>
          match fromHexChar q with
          | None => ([], Some (hex_InvalidByteError q))
          | Some b =>
              let '(out, err) := hex_Decode rest in
              (byte_of_N (N.lor (N.shiftl a 4) b) :: out, err)
          end
      end
  end.

Definition hex_DecodeString (s : string) : list byte * option error :=
  hex_Decode (list_byte_of_string s).

(** ** net/url *)

(** [shouldEscape c encodeQueryComponent]: only the unreserved characters of
    RFC 3986 are left alone. *)
Definition shouldEscape (c : ascii) : bool :=
  let n := N_of_ascii c in
  if in_range 97 122 n || in_range 65 90 n || in_range 48 57 n then false
  else if in_range 45 46 n || (n =? 95)%N || (n =? 126)%N then false (* - . _ ~ *)
  else true.

Fixpoint url_QueryEscape (s : string) : string :=
  match s with
  | "" => ""
  | String c rest =>
      if Ascii.eqb c " " then String "+" (url_QueryEscape rest)
      else if shouldEscape c then
        String "%"
          (String (table_at upperhex (N.shiftr (N_of_ascii c) 4))
             (String (table_at upperhex (N.land (N_of_ascii c) 15))
                (url_QueryEscape rest)))
      else String c (url_QueryEscape rest)
  end.

(** ** path *)

(** Components of a path string: the pieces between slashes. *)
Fixpoint split_slash (s : string) : list string :=
  match s with
  | "" => [""]
  | String c rest =>
      if Ascii.eqb c "/" then "" :: split_slash rest
      else match split_slash rest with
           | x :: xs => String c x :: xs
           | [] => [String c ""]
           end
  end.

(** One step of [path.Clean] on a rooted path; [out] is the stack of
    components kept so far, innermost first. *)
Definition clean_step (out : list string) (c : string) : list string :=
  if decide (c = "") then out
  else if decide (c = ".") then out
  else if decide (c = "..") then tail out
  else c :: out.

Definition clean_from (out : list string) (cs : list string) : list string :=
  fold_left clean_step cs out.

Definition clean (cs : list string) : list string := rev (clean_from [] cs).

Abbreviation fpath := (list string).

(** [path.Join]: empty elements are ignored, the rest is joined with
    slashes and cleaned; the result is the empty string when every element
    is empty. *)
Definition path_Join (elem : list string) : option fpath :=
  if forallb (fun e => bool_decide (e = "")) elem then None
  else Some (clean (flat_map split_slash elem)).

(** ** The file system *)

Inductive node := Directory | Regular (data : list byte).

Inductive result (A : Type) := Ok (a : A) | Fail (e : errno).
Arguments Ok {A} a.
Arguments Fail {A} e.

(** Path resolution: every component before the last must be a directory. *)
Fixpoint walk (fs : gmap fpath node) (cur : fpath) (rest : list string) : result node :=
  match fs !! cur with
  | None => Fail ENOENT
  | Some n =>
      match rest with
      | [] => Ok n
      | c :: rest' =>
          match n with
          | Directory => walk fs (cur ++ [c]) rest'
          | Regular _ => Fail ENOTDIR
          end
      end
  end.

Definition stat (fs : gmap fpath node) (name : option fpath) : result node :=
  match name with
  | None => Fail ENOENT
  | Some q => walk fs [] q
  end.

(** Whether an entry may be created at [q]: its parent must resolve to a
    directory. *)
Definition parent_ready (fs : gmap fpath node) (q : fpath) : result unit :=
  match q with
  | [] => Fail EEXIST
  | _ =>
      match walk fs [] (removelast q) with
      | Ok Directory => Ok tt
      | Ok (Regular _) => Fail ENOTDIR
      | Fail e => Fail e
      end
  end.

(** The names of the entries of directory [d], as [ioutil.ReadDir] lists
    them. *)
Definition child_of (d : fpath) (k : fpath) : option string :=
  match reverse k with
  | [] => None
  | c :: rp => if decide (reverse rp = d) then Some c else None
  end.

Definition ReadDir (fs : gmap fpath node) (d : fpath) : list string :=
  omap (fun kv => child_of d (fst kv)) (map_to_list fs).

(** ** The world: directory tree, fault schedule, source of temp names *)

(** An environmental failure of one system call; [progress] is the number
    of bytes a data transfer moved before it failed. *)
Record glitch := { cause : fault; progress : nat }.

Record world := {
  fs : gmap fpath node;
  rand : nat;                          (* state behind ioutil's nextSuffix *)
  faults : list (option glitch);       (* one decision per system call *)
  history : list (gmap fpath node);    (* every tree an observer could have seen, latest first *)
}.

Definition M (A : Type) : Type := world -> A * world.

#[global] Instance M_ret : MRet M := fun A a w => (a, w).
#[global] Instance M_bind : MBind M :=
  fun A B f m w => let '(a, w') := m w in f a w'.

Definition get_fs : M (gmap fpath node) := fun w => (fs w, w).

Definition put_fs (t : gmap fpath node) : M unit :=
  fun w => (tt, {| fs := t; rand := rand w; faults := faults w; history := t :: history w |}).

Definition syscall : M (option glitch) :=
  fun w =>
    match faults w with
    | [] => (None, w)
    | g :: rest => (g, {| fs := fs w; rand := rand w; faults := rest; history := history w |})
    end.

Definition nextSuffix : M string :=
  fun w => (NilEmpty.string_of_uint (Nat.to_uint (rand w)),
            {| fs := fs w; rand := S (rand w); faults := faults w; history := history w |}).

(** Go's [defer]: [d] runs when [body] returns; its result is dropped. *)
Definition defer {A B : Type} (d : M B) (body : M A) : M A :=
  a ← body; _ ← d; mret a.

Definition glitch_errno (g : glitch) : errno := errno_of_fault (cause g).

(** ** os, io and ioutil *)

(** [*os.File]: a handle on the path it was opened with; [None] is the nil
    pointer. *)
Record File := { Name : option fpath }.

Definition os_Open (name : option fpath) : M (option File * option error) :=
  g ← syscall;
  match g with
  | Some gl => mret (None, Some (PathError "open" (glitch_errno gl)))
  | None =>
      t ← get_fs;
      match stat t name with
      | Fail e => mret (None, Some (PathError "open" e))
      | Ok _ => mret (Some {| Name := name |}, None)
      end
  end.

(** [os.Create]: open for writing, creating or truncating. *)
Definition os_Create (name : option fpath) : M (option File * option error) :=
  g ← syscall;
  match g with
  | Some gl => mret (None, Some (PathError "open" (glitch_errno gl)))
  | None =>
      t ← get_fs;
      match name with
      | None => mret (None, Some (PathError "open" ENOENT))
      | Some q =>
          match stat t name with
          | Ok Directory => mret (None, Some (PathError "open" EISDIR))
          | Ok (Regular _) =>
              _ ← put_fs (<[q := Regular []]> t);
              mret (Some {| Name := name |}, None)
          | Fail _ =>
              match parent_ready t q with
              | Fail e => mret (None, Some (PathError "open" e))
              | Ok _ =>
                  _ ← put_fs (<[q := Regular []]> t);
                  mret (Some {| Name := name |}, None)
              end
          end
      end
  end.

(** [os.OpenFile name (O_RDWR|O_CREATE|O_EXCL)]. *)
Definition os_OpenFile_excl (name : option fpath) : M (option File * option error) :=
  g ← syscall;
  match g with
  | Some gl => mret (None, Some (PathError "open" (glitch_errno gl)))
  | None =>
      t ← get_fs;
      match name with
      | None => mret (None, Some (PathError "open" ENOENT))
      | Some q =>
          match stat t name with
          | Ok _ => mret (None, Some (PathError "open" EEXIST))
          | Fail _ =>
              match parent_ready t q with
              | Fail e => mret (None, Some (PathError "open" e))
              | Ok _ =>
                  _ ← put_fs (<[q := Regular []]> t);
                  mret (Some {| Name := name |}, None)
              end
          end
      end
  end.

Definition os_IsExist (e : error) : bool :=
  match e with
  | PathError _ EEXIST | LinkError _ EEXIST | PathError _ ENOTEMPTY | LinkError _ ENOTEMPTY => true
  | _ => false
  end.

Definition os_TempDir : fpath := ["tmp"].

(** [filepath.Join dir x] for an already clean [dir]. *)
Definition join_under (d : fpath) (x : string) : fpath :=
  rev (clean_from (rev d) (split_slash x)).

Fixpoint TempFile_loop (attempts : nat) (d : fpath) (prefix : string)
  : M (option File * option error) :=
  match attempts with
  | O => mret (None, Some (PathError "open" EEXIST))
  | S n =>
      s ← nextSuffix;
      '(f, err) ← os_OpenFile_excl (Some (join_under d (prefix +:+ s)));
      match err with
      | Some e => if os_IsExist e then TempFile_loop n d prefix else mret (f, err)
      | None => mret (f, err)
      end
  end.

(** [ioutil.TempFile]: up to 10000 attempts at a fresh name. *)
Definition ioutil_TempFile (dir : option fpath) (prefix : string)
  : M (option File * option error) :=
  TempFile_loop (N.to_nat 10000)
    (match dir with None => os_TempDir | Some d => d end) prefix.

(** Appending [data] to the file behind a handle. *)
Definition append_to (f : option File) (data : list byte) : M (option error) :=
  match f with
  | None => mret (Some os_ErrInvalid)
  | Some h =>
      t ← get_fs;
      match Name h with
      | None => mret (Some (PathError "write" EBADF))
      | Some q =>
          match t !! q with
          | Some (Regular old) => _ ← put_fs (<[q := Regular (old ++ data)]> t); mret None
          | _ => mret (Some (PathError "write" EBADF))
          end
      end
  end.

(** The [Write] method of [os.File]. *)
Definition File_Write (f : option File) (data : list byte) : M (nat * option error) :=
  match f with
  | None => mret (0, Some os_ErrInvalid)
  | Some _ =>
      g ← syscall;
      match g with
      | Some gl =>
          let part := take (progress gl) data in
          _ ← append_to f part;
          mret (length part, Some (PathError "write" (glitch_errno gl)))
      | None =>
          err ← append_to f data;
          mret (match err with None => length data | Some _ => 0 end, err)
      end
  end.

(** The [Close] method of [os.File]. *)
Definition File_Close (f : option File) : M (option error) :=
  match f with
  | None => mret (Some os_ErrInvalid)
  | Some _ =>
      g ← syscall;
      match g with
      | Some gl => mret (Some (PathError "close" (glitch_errno gl)))
      | None => mret None
      end
  end.

Definition File_Name (f : option File) : option fpath :=
  match f with
  | None => None
  | Some h => Name h
  end.

(** [os.Rename] of a regular file: an existing regular file at the new
    name is replaced, a directory there is refused.  The package only ever
    renames the temporary file it has just written; renaming a directory is
    not modelled and is refused. *)
Definition os_Rename (oldname newname : option fpath) : M (option error) :=
  g ← syscall;
  match g with
  | Some gl => mret (Some (LinkError "rename" (glitch_errno gl)))
  | None =>
      t ← get_fs;
      match oldname, newname with
      | Some o, Some n =>
          match stat t oldname with
          | Fail e => mret (Some (LinkError "rename" e))
          | Ok Directory => mret (Some (LinkError "rename" EINVAL))
          | Ok (Regular d) =>
              match stat t newname with
              | Ok Directory => mret (Some (LinkError "rename" EEXIST))
              | Ok (Regular _) =>
                  _ ← put_fs (<[n := Regular d]> (delete o t)); mret None
              | Fail _ =>
                  match parent_ready t n with
                  | Fail e => mret (Some (LinkError "rename" e))
                  | Ok _ => _ ← put_fs (<[n := Regular d]> (delete o t)); mret None
                  end
              end
          end
      | _, _ => mret (Some (LinkError "rename" ENOENT))
      end
  end.

(** [os.Remove]: unlinks a file or removes an empty directory. *)
Definition os_Remove (name : option fpath) : M (option error) :=
  g ← syscall;
  match g with
  | Some gl => mret (Some (PathError "remove" (glitch_errno gl)))
  | None =>
      t ← get_fs;
      match name with
      | None => mret (Some (PathError "remove" ENOENT))
      | Some q =>
          match stat t name with
          | Fail e => mret (Some (PathError "remove" e))
          | Ok (Regular _) => _ ← put_fs (delete q t); mret None
          | Ok Directory =>
              match q, ReadDir t q with
              | [], _ => mret (Some (PathError "remove" EBUSY))
              | _, [] => _ ← put_fs (delete q t); mret None
              | _, _ => mret (Some (PathError "remove" ENOTEMPTY))
              end
          end
      end
  end.

(** [io.ReadFull f buf] with [len(buf) = n], on a handle positioned at the
    start of the file: the bytes read and the error. *)
Definition io_ReadFull (f : option File) (n : nat) : M (list byte * option error) :=
  match n, f with
  | O, _ => mret ([], None)
  | _, None => mret ([], Some os_ErrInvalid)
  | _, Some h =>
      g ← syscall;
      match g with
      | Some gl => mret ([], Some (PathError "read" (glitch_errno gl)))
      | None =>
          t ← get_fs;
          match stat t (Name h) with
          | Fail _ => mret ([], Some (PathError "read" EBADF))
          | Ok Directory => mret ([], Some (PathError "read" EISDIR))
          | Ok (Regular d) =>
              if decide (n <= length d) then mret (take n d, None)
              else match d with
                   | [] => mret ([], Some io_EOF)
                   | _ => mret (d, Some io_ErrUnexpectedEOF)
                   end
          end
      end
  end.

(** [os.MkdirAll] on a clean path: existing directories are kept, missing
    ones are made from the top down, a regular file in the way is an
    error.  Each directory made is one system call. *)
Fixpoint MkdirAll_from (cur : fpath) (rest : list string) : M (option error) :=
  t ← get_fs;
  let descend : M (option error) :=
    match rest with
    | [] => mret None
    | c :: rest' => MkdirAll_from (cur ++ [c]) rest'
    end in
  match t !! cur with
  | Some (Regular _) => mret (Some (PathError "mkdir" ENOTDIR))
  | Some Directory => descend
  | None =>
      g ← syscall;
      match g with
      | Some gl => mret (Some (PathError "mkdir" (glitch_errno gl)))
      | None => _ ← put_fs (<[cur := Directory]> t); descend
      end
  end.

Definition os_MkdirAll (name : option fpath) : M (option error) :=
  match name with
  | None => mret (Some (PathError "mkdir" ENOENT))
  | Some q => MkdirAll_from [] q
  end.

(** An [io.Reader] handed to the repository: it delivers [content] and then
    either ends or fails. *)
Record Reader := { content : list byte; failure : option string }.

(** [hash.Hash], as far as the repository uses it: the digest size and the
    digest of a byte sequence. *)
Record hash_Hash := { Size : nat; Sum : list byte -> list byte }.

(** Modelled from the spec: package [hashing] is not part of the sources at
    hand.  Its reader passes the bytes of the wrapped reader through, feeds
    every one of them to the hash exactly once and in order, and exposes the
    digest of what has passed once reading is complete. *)
Record hashing_Reader := { source : Reader; hasher : hash_Hash; seen : list byte }.

Definition hashing_NewReader (rd : Reader) (h : hash_Hash) : hashing_Reader :=
  {| source := rd; hasher := h; seen := [] |}.

Definition hashing_Hash (rd : hashing_Reader) : list byte := Sum (hasher rd) (seen rd).

Definition feed (rd : hashing_Reader) (data : list byte) : hashing_Reader :=
  {| source := source rd; hasher := hasher rd; seen := seen rd ++ data |}.

(** [io.Copy dst src]: every byte of the source is written to the file; a
    failing write stops the copy after [progress] bytes, a failing source
    after its content. The reader is returned in its new state. *)
Definition io_Copy (dst : option File) (src : hashing_Reader)
  : M (nat * option error * hashing_Reader) :=
  let data := content (source src) in
  match dst with
  | None => mret (0, Some os_ErrInvalid, src)
  | Some _ =>
      g ← syscall;
      match g with
      | Some gl =>
          let part := take (progress gl) data in
          _ ← append_to dst part;
          mret (length part, Some (PathError "write" (glitch_errno gl)), feed src part)
      | None =>
          err ← append_to dst data;
          match err with
          | Some e => mret (0, Some e, feed src data)
          | None =>
              match failure (source src) with
              | Some msg => mret (length data, Some (ReaderError msg), feed src data)
              | None => mret (length data, None, feed src data)
              end
          end
      end
  end.

(** ** Package storage *)

Definition dirMode : N := 448. (* 0700 *)
Definition objectPath : string := "objects".
Definition refPath : string := "refs".
Definition tempPath : string := "tmp".

(** References content within a repository. *)
Abbreviation ID := (list byte).

Definition ID_String (id : ID) : string := hex_EncodeToString id.

Definition bytes_Equal (a b : list byte) : bool := bool_decide (a = b).

(** Equal compares an ID to another other. *)
Definition ID_Equal (id other : ID) : bool := bytes_Equal id other.

(** EqualString compares this ID to another one, given as a string. *)
Definition ID_EqualString (id : ID) (other : string) : bool * option error :=
  let '(s, err) := hex_DecodeString other in
  match err with
  | Some e => (false, Some e)
  | None => (ID_Equal id s, None)
  end.

(** Name stands for the alias given to an ID. *)
Definition Name_Encode (n : string) : string := url_QueryEscape n.

Record Dir := { path : string; hash : hash_Hash }.

(** [create] hands [r.path] itself to [os.MkdirAll]; here it is resolved
    like every other path. *)
Definition create (r : Dir) : M (option error) :=
  let dirs := [ path_Join [path r];
                path_Join [path r; objectPath];
                path_Join [path r; refPath];
                path_Join [path r; tempPath] ] in
  (fix loop (dirs : list (option fpath)) : M (option error) :=
     match dirs with
     | [] => mret None
     | dir :: rest =>
         err ← os_MkdirAll dir;
         match err with
         | Some e => mret (Some e)
         | None => loop rest
         end
     end) dirs.

(** NewDir creates a new dir-baked repository at the given path.  The
    constructor [sha256.New] of [crypto/sha256] is a parameter. *)
Definition NewDir (sha256_New : hash_Hash) (p : string) : M (option Dir * option error) :=
  let d := {| path := p; hash := sha256_New |} in
  err ← create d;
  match err with
  | Some e => mret (None, Some e)
  | None => mret (Some d, None)
  end.

(** SetHash changes the hash function used for deriving IDs. *)
Definition SetHash (r : Dir) (h : hash_Hash) : Dir := {| path := path r; hash := h |}.

(** Path returns the directory used for this repository. *)
Definition Path (r : Dir) : string := path r.

(** Put saves content and returns the ID. *)
Definition Put (r : Dir) (reader : Reader) : M (ID * option error) :=
  (* save contents to tempfile, hash while writing *)
  '(file, err) ← ioutil_TempFile (path_Join [path r; tempPath]) "temp-";
  match err with
  | Some e => mret ([], Some e)
  | None =>
      let rd := hashing_NewReader reader (hash r) in
      '(_, err, rd) ← io_Copy file rd;
      match err with
      | Some e => mret ([], Some e)
      | None =>
          err ← File_Close file;
          match err with
          | Some e => mret ([], Some e)
          | None =>
              (* move file to final name using hash of contents *)
              let id : ID := hashing_Hash rd in
              let filename := path_Join [path r; objectPath; ID_String id] in
              err ← os_Rename (File_Name file) filename;
              match err with
              | Some e => mret ([], Some e)
              | None => mret (id, None)
              end
          end
      end
  end.

(** Test returns true if the given ID exists in the repository. *)
Definition Test (r : Dir) (id : ID) : M (bool * option error) :=
  (* try to open file *)
  '(file, err) ← os_Open (path_Join [path r; objectPath; ID_String id]);
  defer (File_Close file)
    (match err with
     | Some e => if os_IsNotExist e then mret (false, None) else mret (false, Some e)
     | None => mret (true, None)
     end).

(** Get returns a reader for the content stored under the given ID. *)
Definition Get (r : Dir) (id : ID) : M (option File * option error) :=
  '(file, err) ← os_Open (path_Join [path r; objectPath; ID_String id]);
  match err with
  | Some e => mret (None, Some e)
  | None => mret (file, None)
  end.

(** Remove removes the content stored at ID. *)
Definition Remove (r : Dir) (id : ID) : M (option error) :=
  os_Remove (path_Join [path r; objectPath; ID_String id]).

(** Unlink removes a named ID. *)
Definition Unlink (r : Dir) (name : string) : M (option error) :=
  os_Remove (path_Join [path r; refPath; Name_Encode name]).

(** Link assigns a name to an ID. Name must be unique in this repository
    and ID must exist. *)
Definition Link (r : Dir) (name : string) (id : ID) : M (option error) :=
  '(exists_, err) ← Test r id;
  match err with
  | Some e => mret (Some e)
  | None =>
      if negb exists_ then mret (Some ErrIDDoesNotExist)
      else
        (* create file, write id *)
        '(f, err) ← os_Create (path_Join [path r; refPath; Name_Encode name]);
        defer (File_Close f)
          (match err with
           | Some e => mret (Some e)
           | None =>
               _ ← File_Write f (list_byte_of_string (hex_EncodeToString id));
               mret None
           end)
  end.

(** Resolve returns the ID associated with the given name. *)
Definition Resolve (r : Dir) (name : string) : M (ID * option error) :=
  '(f, err) ← os_Open (path_Join [path r; refPath; Name_Encode name]);
  defer (File_Close f)
    (match err with
     | Some e => mret ([], Some e)
     | None =>
         (* read hex string *)
         let l := Size (hash r) in
         '(buf, err) ← io_ReadFull f (l * 2);
         match err with
         | Some e => mret ([], Some e)
         | None =>
             let '(id, err) := hex_Decode buf in
             match err with
             | Some e => mret ([], Some e)
             | None => mret (id, None)
             end
         end
     end).

(** What reading a stream returned by [Get] to its end yields. *)
Definition ReadAll (t : gmap fpath node) (f : option File) : option (list byte) :=
  match f with
  | None => None
  | Some h =>
      match stat t (Name h) with
      | Ok (Regular d) => Some d
      | _ => None
      end
  end.

(** ** Derived notions used in the statements *)

(** Hex text as the design describes it: an even number of hex digits. *)
Definition is_hex_digit (c : byte) : bool :=
  existsb (Byte.eqb c) (list_byte_of_string "0123456789abcdefABCDEF").

Definition is_hex_text (s : list byte) : bool :=
  Nat.even (length s) && forallb is_hex_digit s.

Definition is_decode_error (e : error) : bool :=
  match e with
  | hex_InvalidByteError _ | hex_ErrLength => true
  | _ => false
  end.

(** The places of a repository in the tree. *)
Definition root_of (r : Dir) : fpath := clean (split_slash (path r)).
Definition objects_dir (r : Dir) : fpath := root_of r ++ [objectPath].
Definition refs_dir (r : Dir) : fpath := root_of r ++ [refPath].
Definition tmp_dir (r : Dir) : fpath := root_of r ++ [tempPath].

Definition object_file (r : Dir) (id : ID) : option fpath :=
  path_Join [path r; objectPath; ID_String id].

Definition alias_file (r : Dir) (name : string) : option fpath :=
  path_Join [path r; refPath; Name_Encode name].

(** The environment's next decision, and a world in which no system call
    is made to fail. *)
Definition next_fault (w : world) : option glitch :=
  match faults w with
  | [] => None
  | g :: _ => g
  end.

Definition calm (w : world) : Prop := faults w = [].

(** Two trees that differ at most inside [tmp/]. *)
Definition same_outside_tmp (r : Dir) (t t' : gmap fpath node) : Prop :=
  forall k, (forall x, k <> tmp_dir r ++ [x]) -> t !! k = t' !! k.

(** Proof-side vocabulary: single path components, lookups as results,
    and the worlds a system call leads to. *)

Fixpoint slashless (s : string) : bool :=
  match s with
  | "" => true
  | String c rest => negb (Ascii.eqb c "/") && slashless rest
  end.

(** A component that [path.Clean] keeps as it is. *)
Definition plain (c : string) : Prop := c <> "" /\ c <> "." /\ c <> "..".

Definition lookup_node (t : gmap fpath node) (k : fpath) : result node :=
  match t !! k with
  | Some n => Ok n
  | None => Fail ENOENT
  end.

Definition advance (w : world) : world :=
  {| fs := fs w; rand := rand w; faults := tail (faults w); history := history w |}.

Definition set_fs (t : gmap fpath node) (w : world) : world :=
  {| fs := t; rand := rand w; faults := faults w; history := t :: history w |}.

Definition bump (w : world) : world :=
  {| fs := fs w; rand := S (rand w); faults := faults w; history := history w |}.

Definition temp_name_at (n : nat) : string :=
  "temp-" +:+ NilEmpty.string_of_uint (Nat.to_uint n).

(** The three ways a call of [Put] can end: refused before anything was
    written, abandoned with a temporary file left in [tmp/], or published
    under the final name. *)
Inductive Put_outcome (r : Dir) (rd : Reader) (w : world) : ID * option error -> world -> Prop :=
  | Put_refused (en : errno) (w' : world) :
      fs w' = fs w ->
      history w' = history w ->
      Put_outcome r rd w ([], Some (PathError "open" en)) w'
  | Put_abandoned (e : error) (x : string) (part : list byte) (steps : list (gmap fpath node))
      (w' : world) :
      fs w !! (tmp_dir r ++ [x]) = None ->
      fs w' = <[tmp_dir r ++ [x] := Regular part]> (fs w) ->
      history w' = steps ++ history w ->
      (forall s, s ∈ steps -> exists p, s = <[tmp_dir r ++ [x] := Regular p]> (fs w)) ->
      (forall en, e = LinkError "rename" en -> part = content rd) ->
      Put_outcome r rd w ([], Some e) w'
  | Put_published (x : string) (k : fpath) (w' : world) :
      failure rd = None ->
      object_file r (Sum (hash r) (content rd)) = Some k ->
      fs w !! (tmp_dir r ++ [x]) = None ->
      stat (fs w') (Some k) = Ok (Regular (content rd)) ->
      fs w' = <[k := Regular (content rd)]> (fs w) ->
      history w' = [fs w';
                    <[tmp_dir r ++ [x] := Regular (content rd)]> (fs w);
                    <[tmp_dir r ++ [x] := Regular []]> (fs w)] ++ history w ->
      Put_outcome r rd w (Sum (hash r) (content rd), None) w'.

(** A small repository to run the operations on: a one-byte digest (the
    length of the content modulo 256) installed with [SetHash], and a tree
    that holds only the root directory. *)
Definition length_hash : hash_Hash :=
  {| Size := 1; Sum := fun b => [byte_of_N (N.of_nat (length b) mod 256)] |}.

Definition wide_hash : hash_Hash :=
  {| Size := 2; Sum := fun b => [x00; byte_of_N (N.of_nat (length b) mod 256)] |}.

Definition demo_repo : Dir := SetHash {| path := "/repo"; hash := length_hash |} length_hash.

Definition bare_world : world :=
  {| fs := {[ [] := Directory ]}; rand := 0; faults := []; history := [] |}.

Definition fresh_world : world := snd (create demo_repo bare_world).

Definition hello : Reader :=
  {| content := list_byte_of_string "hello"; failure := None |}.

Definition stored_world : world := snd (Put demo_repo hello fresh_world).

Definition removed_world : world := snd (Remove demo_repo [x05] stored_world).

(** A tree in which a regular file sits where [objects/] should be. *)
Definition blocked_world : world :=
  {| fs := {[ [] := Directory; ["repo"] := Directory; ["repo"; "objects"] := Regular [] ]};
     rand := 0; faults := []; history := [] |}.

Definition linked_world : world := snd (Link demo_repo "greeting" [x05] stored_world).

Definition dangling_world : world := snd (Remove demo_repo [x05] linked_world).

(** The hash function is changed to a two-byte digest after the object
    was stored. *)
Definition rehashed_repo : Dir := SetHash demo_repo wide_hash.

Definition with_faults (fl : list (option glitch)) (w : world) : world :=
  {| fs := fs w; rand := rand w; faults := fl; history := history w |}.

(** ** The remaining operation and further vocabulary *)



(** ASCII lower case, as [strings.ToLower] acts on hex text. *)
Definition lower_byte (c : byte) : byte :=
  let n := Byte.to_N c in
  if in_range 65 90 n then byte_of_N (n + 32) else c.

Definition is_lower_hex_digit (c : byte) : bool :=
  existsb (Byte.eqb c) (list_byte_of_string hextable).

(** A computation that makes no system call fail in a world where none is
    scheduled to, and one that leaves the tree and its history alone. *)
Definition keeps_calm {A : Type} (m : M A) : Prop :=
  forall w, calm w -> calm (snd (m w)).

Definition read_only {A : Type} (m : M A) : Prop :=
  forall w, fs (snd (m w)) = fs w /\ history (snd (m w)) = history w.

(** Where an alias name leads. *)
Definition alias_target (r : Dir) (name : string) : fpath :=
  if decide (name = "") then refs_dir r
  else if decide (name = ".") then refs_dir r
  else if decide (name = "..") then root_of r
  else refs_dir r ++ [Name_Encode name].



Definition relinked_world : world := snd (Link demo_repo "greeting" [x05] linked_world).

Definition unlinked_world : world := snd (Unlink demo_repo "greeting" linked_world).

Definition hi : Reader :=
  {| content := list_byte_of_string "hi"; failure := None |}.

Definition other_world : world := snd (Link demo_repo "other" [x05] linked_world).

Definition emptied_world : world := snd (Remove demo_repo [] fresh_world).

Definition wide_world : world :=
  snd (Link rehashed_repo "wide" [x00; x05] (snd (Put rehashed_repo hello fresh_world))).

(** ** Facts about hex text *)

Section Hex.

Lemma hex_byte_roundtrip (v : byte) :
  exists a b,
    fromHexChar (byte_of_ascii (table_at hextable (N.shiftr (Byte.to_N v) 4))) = Some a /\
    fromHexChar (byte_of_ascii (table_at hextable (N.land (Byte.to_N v) 15))) = Some b /\
    byte_of_N (N.lor (N.shiftl a 4) b) = v.
Proof.
  destruct v; vm_compute; eexists; eexists; repeat split.
Qed.

Lemma hex_Decode_Encode (id : ID) :
  hex_Decode (list_byte_of_string (hex_EncodeToString id)) = (id, None).
Proof.
  induction id as [|v id IH]; [reflexivity|].
  destruct (hex_byte_roundtrip v) as (a & b & Ha & Hb & Hv).
  change (list_byte_of_string (hex_EncodeToString (v :: id)))
    with (byte_of_ascii (table_at hextable (N.shiftr (Byte.to_N v) 4))
          :: byte_of_ascii (table_at hextable (N.land (Byte.to_N v) 15))
          :: list_byte_of_string (hex_EncodeToString id)).
  cbn [hex_Decode]. rewrite Ha, Hb, IH, Hv. reflexivity.
Qed.

Lemma hex_Encode_length (id : ID) :
  length (list_byte_of_string (hex_EncodeToString id)) = length id * 2.
Proof.
  induction id as [|v id IH]; [reflexivity|].
  change (list_byte_of_string (hex_EncodeToString (v :: id)))
    with (byte_of_ascii (table_at hextable (N.shiftr (Byte.to_N v) 4))
          :: byte_of_ascii (table_at hextable (N.land (Byte.to_N v) 15))
          :: list_byte_of_string (hex_EncodeToString id)).
  cbn [length]. rewrite IH. lia.
Qed.

Lemma fromHexChar_digit (c : byte) :
  is_hex_digit c = match fromHexChar c with Some _ => true | None => false end.
Proof. destruct c; reflexivity. Qed.

(** Induction two bytes at a time, the way [hex.Decode] consumes its
    input. *)
Lemma pairs_ind (P : list byte -> Prop) :
  P [] -> (forall p, P [p]) -> (forall p q rest, P rest -> P (p :: q :: rest)) ->
  forall l, P l.
Proof.
  intros H0 H1 H2 l.
  enough (P l /\ forall p, P (p :: l)) as [H _] by exact H.
  induction l as [|x l [IH1 IH2]]; split; auto.
Qed.

Lemma hex_Decode_ok_iff (s : list byte) :
  is_hex_text s = true <-> snd (hex_Decode s) = None.
Proof.
  induction s as [|p|p q rest IH] using pairs_ind.
  - split; reflexivity.
  - unfold is_hex_text. cbn [hex_Decode].
    destruct (fromHexChar p); cbn; split; congruence.
  - unfold is_hex_text in *. cbn [hex_Decode length Nat.even forallb].
    rewrite !fromHexChar_digit.
    destruct (fromHexChar p); [|cbn; rewrite ?andb_false_r; split; congruence].
    destruct (fromHexChar q); [|cbn; rewrite ?andb_false_r; split; congruence].
    destruct (hex_Decode rest) as [out err]. cbn in *. exact IH.
Qed.

Lemma hex_Decode_error (s : list byte) (e : error) :
  snd (hex_Decode s) = Some e -> is_decode_error e = true.
Proof.
  revert e. induction s as [|p|p q rest IH] using pairs_ind; intros e.
  - discriminate.
  - cbn [hex_Decode]. destruct (fromHexChar p); cbn; intros [= <-]; reflexivity.
  - cbn [hex_Decode].
    destruct (fromHexChar p); [|cbn; intros [= <-]; reflexivity].
    destruct (fromHexChar q); [|cbn; intros [= <-]; reflexivity].
    destruct (hex_Decode rest) as [out err]. cbn in *. apply IH.
Qed.

Lemma hex_Decode_length (s out : list byte) :
  hex_Decode s = (out, None) -> length s = length out * 2.
Proof.
  revert out. induction s as [|p|p q rest IH] using pairs_ind; intros out.
  - intros [= <-]. reflexivity.
  - cbn [hex_Decode]. destruct (fromHexChar p); discriminate.
  - cbn [hex_Decode].
    destruct (fromHexChar p); [|discriminate].
    destruct (fromHexChar q); [|discriminate].
    destruct (hex_Decode rest) as [o err]. intros [= <- ->].
    cbn [length]. rewrite (IH o eq_refl). lia.
Qed.

End Hex.

(** ** Facts about path components *)

Section Paths.

Lemma split_slash_slashless (s : string) :
  slashless s = true -> split_slash s = [s].
Proof.
  induction s as [|c rest IH]; [reflexivity|].
  cbn [slashless split_slash]. intros [Hc Hr]%andb_true_iff.
  apply negb_true_iff in Hc. rewrite Hc, (IH Hr). reflexivity.
Qed.

Lemma slashless_append (a b : string) :
  slashless (a +:+ b) = slashless a && slashless b.
Proof.
  induction a as [|c a IH]; [reflexivity|].
  simpl. rewrite IH, andb_assoc. reflexivity.
Qed.

Lemma clean_step_plain (out : list string) (c : string) :
  plain c -> clean_step out c = c :: out.
Proof.
  intros (H1 & H2 & H3). unfold clean_step.
  repeat case_decide; congruence.
Qed.

Lemma clean_from_app (out : list string) (a b : list string) :
  clean_from out (a ++ b) = clean_from (clean_from out a) b.
Proof. unfold clean_from. apply fold_left_app. Qed.

Lemma join_under_plain (d : fpath) (x : string) :
  slashless x = true -> plain x -> join_under d x = d ++ [x].
Proof.
  intros Hs Hp. unfold join_under, clean_from.
  rewrite (split_slash_slashless x Hs). cbn [fold_left].
  rewrite clean_step_plain by exact Hp.
  cbn [rev]. rewrite rev_involutive. reflexivity.
Qed.

Lemma path_Join_two (p c : string) :
  slashless c = true -> plain c ->
  path_Join [p; c] = Some (clean (split_slash p) ++ [c]).
Proof.
  intros Hs Hp. unfold path_Join. cbn [forallb flat_map].
  destruct Hp as (Hne & Hp2 & Hp3).
  rewrite (bool_decide_eq_false_2 (c = "")) by exact Hne.
  rewrite andb_false_r. f_equal. unfold clean.
  rewrite app_nil_r, clean_from_app, (split_slash_slashless c Hs).
  unfold clean_from at 1. cbn [fold_left].
  rewrite clean_step_plain by (repeat split; assumption).
  reflexivity.
Qed.

Lemma path_Join_three (p c h : string) :
  slashless c = true -> plain c -> slashless h = true ->
  path_Join [p; c; h] =
    Some (rev (clean_step (c :: clean_from [] (split_slash p)) h)).
Proof.
  intros Hs Hp Hh. unfold path_Join. cbn [forallb flat_map].
  destruct Hp as (Hne & Hp2 & Hp3).
  rewrite (bool_decide_eq_false_2 (c = "")) by exact Hne.
  cbn [andb]. rewrite andb_false_r. f_equal. unfold clean.
  rewrite app_nil_r, clean_from_app, clean_from_app.
  rewrite (split_slash_slashless c Hs), (split_slash_slashless h Hh).
  unfold clean_from at 1 2. cbn [fold_left].
  rewrite (clean_step_plain _ c) by (repeat split; assumption).
  reflexivity.
Qed.

Lemma path_Join_three_plain (p c h : string) :
  slashless c = true -> plain c -> slashless h = true -> plain h ->
  path_Join [p; c; h] = Some (clean (split_slash p) ++ [c; h]).
Proof.
  intros Hs Hp Hh Hph. rewrite path_Join_three by assumption.
  rewrite clean_step_plain by exact Hph. cbn [rev]. unfold clean.
  rewrite <- app_assoc. reflexivity.
Qed.

Lemma path_Join_three_empty (p c : string) :
  slashless c = true -> plain c ->
  path_Join [p; c; ""] = Some (clean (split_slash p) ++ [c]).
Proof.
  intros Hs Hp. rewrite path_Join_three by (assumption || reflexivity).
  reflexivity.
Qed.

(** Hex text is a single path component. *)
Lemma hex_digit_chars (v : byte) :
  let hi := table_at hextable (N.shiftr (Byte.to_N v) 4) in
  let lo := table_at hextable (N.land (Byte.to_N v) 15) in
  Ascii.eqb hi "/" = false /\ Ascii.eqb lo "/" = false /\ Ascii.eqb hi "." = false.
Proof. destruct v; vm_compute; repeat split. Qed.

Lemma hex_slashless (id : ID) : slashless (hex_EncodeToString id) = true.
Proof.
  induction id as [|v id IH]; [reflexivity|].
  destruct (hex_digit_chars v) as (H1 & H2 & _).
  cbn [hex_EncodeToString slashless]. rewrite H1, H2, IH. reflexivity.
Qed.

Lemma hex_plain (id : ID) : id <> [] -> plain (hex_EncodeToString id).
Proof.
  destruct id as [|v id]; [congruence|]. intros _.
  destruct (hex_digit_chars v) as (_ & _ & H3).
  cbn [hex_EncodeToString]. repeat split; intros [= E]; try discriminate.
  rewrite E in H3. discriminate H3.
Qed.

(** An encoded alias name is a single path component. *)
Lemma shouldEscape_slash (c : ascii) :
  shouldEscape c = false -> Ascii.eqb c "/" = false.
Proof.
  destruct c as [[] [] [] [] [] [] [] []]; vm_compute; congruence.
Qed.

Lemma upperhex_chars (c : ascii) :
  Ascii.eqb (table_at upperhex (N.shiftr (N_of_ascii c) 4)) "/" = false /\
  Ascii.eqb (table_at upperhex (N.land (N_of_ascii c) 15)) "/" = false.
Proof.
  destruct c as [[] [] [] [] [] [] [] []]; vm_compute; split; reflexivity.
Qed.

Lemma escape_slashless (n : string) : slashless (url_QueryEscape n) = true.
Proof.
  induction n as [|c rest IH]; [reflexivity|].
  cbn [url_QueryEscape].
  destruct (Ascii.eqb c " ") eqn:Hsp; [cbn [slashless]; rewrite IH; reflexivity|].
  destruct (shouldEscape c) eqn:Hesc.
  - destruct (upperhex_chars c) as [H1 H2].
    cbn [slashless]. rewrite H1, H2, IH. reflexivity.
  - cbn [slashless]. rewrite (shouldEscape_slash c Hesc), IH. reflexivity.
Qed.

(** What the first character of an encoded name can be. *)
Lemma escape_head (c : ascii) (rest : string) :
  exists tl, url_QueryEscape (String c rest) = String "+" tl \/
             url_QueryEscape (String c rest) = String "%" tl \/
             (url_QueryEscape (String c rest) = String c tl /\ tl = url_QueryEscape rest).
Proof.
  cbn [url_QueryEscape].
  destruct (Ascii.eqb c " "); [eexists; left; reflexivity|].
  destruct (shouldEscape c); [eexists; right; left; reflexivity|].
  eexists; right; right; split; reflexivity.
Qed.

Lemma escape_empty (n : string) : url_QueryEscape n = "" -> n = "".
Proof.
  destruct n as [|c rest]; [reflexivity|].
  destruct (escape_head c rest) as (tl & [H | [H | [H _]]]); rewrite H; discriminate.
Qed.

Lemma escape_dot (n : string) : url_QueryEscape n = "." -> n = ".".
Proof.
  destruct n as [|c rest]; [discriminate|].
  destruct (escape_head c rest) as (tl & [H | [H | [H Htl]]]); rewrite H;
    intros [= E1 E2].
  rewrite Htl in E2. apply escape_empty in E2. subst. reflexivity.
Qed.

Lemma escape_plain (n : string) :
  n <> "" -> n <> "." -> n <> ".." -> plain (Name_Encode n).
Proof.
  intros H0 H1 H2. unfold Name_Encode. repeat split; intros E.
  - apply escape_empty in E. contradiction.
  - apply escape_dot in E. contradiction.
  - destruct n as [|c rest]; [contradiction|].
    destruct (escape_head c rest) as (tl & [H | [H | [H Htl]]]); rewrite H in E;
      try discriminate E.
    injection E as E1 E2. rewrite Htl in E2. apply escape_dot in E2. subst. contradiction.
Qed.

(** A temporary name is a single path component. *)
Lemma decimal_slashless (u : Decimal.uint) :
  slashless (NilEmpty.string_of_uint u) = true.
Proof. induction u; cbn; auto. Qed.

Lemma temp_name (d : fpath) (n : nat) :
  join_under d ("temp-" +:+ NilEmpty.string_of_uint (Nat.to_uint n)) =
    d ++ ["temp-" +:+ NilEmpty.string_of_uint (Nat.to_uint n)].
Proof.
  apply join_under_plain.
  - rewrite slashless_append, decimal_slashless. reflexivity.
  - repeat split; discriminate.
Qed.

End Paths.

(** Where the repository's paths lead. *)
Section Places.

Variable r : Dir.

Lemma constant_dirs :
  (slashless objectPath = true /\ plain objectPath) /\
  (slashless refPath = true /\ plain refPath) /\
  (slashless tempPath = true /\ plain tempPath).
Proof. repeat split; discriminate. Qed.

Lemma objects_dir_path : path_Join [path r; objectPath] = Some (objects_dir r).
Proof. apply path_Join_two; apply constant_dirs. Qed.

Lemma refs_dir_path : path_Join [path r; refPath] = Some (refs_dir r).
Proof. apply path_Join_two; apply constant_dirs. Qed.

Lemma tmp_dir_path : path_Join [path r; tempPath] = Some (tmp_dir r).
Proof. apply path_Join_two; apply constant_dirs. Qed.

Lemma object_file_plain (id : ID) :
  id <> [] -> object_file r id = Some (objects_dir r ++ [ID_String id]).
Proof.
  intros Hid. unfold object_file, objects_dir. rewrite <- app_assoc.
  apply path_Join_three_plain; try apply constant_dirs.
  - apply hex_slashless.
  - apply hex_plain, Hid.
Qed.

Lemma object_file_empty : object_file r [] = Some (objects_dir r).
Proof. apply path_Join_three_empty; apply constant_dirs. Qed.

Lemma object_file_some (id : ID) :
  exists d c, object_file r id = Some (d ++ [c]) /\
              length d <= S (length (root_of r)) /\
              (forall x, d ++ [c] <> tmp_dir r ++ [x]).
Proof.
  destruct id as [|v id].
  - exists (root_of r), objectPath. split; [apply object_file_empty|].
    split; [lia|].
    intros x E. unfold tmp_dir in E.
    apply (f_equal length) in E. rewrite !length_app in E. cbn in E. lia.
  - exists (objects_dir r), (ID_String (v :: id)).
    split; [apply object_file_plain; discriminate|].
    split; [unfold objects_dir; rewrite length_app; cbn; lia|].
    intros x E. unfold objects_dir, tmp_dir in E.
    rewrite <- !app_assoc in E. apply app_inv_head in E. discriminate E.
Qed.

Lemma alias_file_plain (name : string) :
  name <> "" -> name <> "." -> name <> ".." ->
  alias_file r name = Some (refs_dir r ++ [Name_Encode name]).
Proof.
  intros H0 H1 H2. unfold alias_file, refs_dir. rewrite <- app_assoc.
  apply path_Join_three_plain; try apply constant_dirs.
  - apply escape_slashless.
  - apply escape_plain; assumption.
Qed.

Lemma alias_file_some (name : string) :
  exists k, alias_file r name = Some k.
Proof.
  unfold alias_file. rewrite path_Join_three;
    [eexists; reflexivity | apply constant_dirs .. | apply escape_slashless].
Qed.

End Places.

(** ** Facts about path resolution *)

Section Walk.

Implicit Types (t : gmap fpath node) (cur rest k d : fpath) (c : string).

Lemma walk_snoc t cur rest c :
  walk t cur (rest ++ [c]) =
    match walk t cur rest with
    | Ok Directory => lookup_node t (cur ++ rest ++ [c])
    | Ok (Regular _) => Fail ENOTDIR
    | Fail e => Fail e
    end.
Proof.
  revert cur. induction rest as [|x rest IH]; intros cur; cbn [walk app].
  - unfold lookup_node. destruct (t !! cur) as [[|data]|]; reflexivity.
  - destruct (t !! cur) as [[|data]|]; try reflexivity.
    rewrite IH, <- app_assoc. reflexivity.
Qed.

Lemma stat_snoc t d c :
  stat t (Some (d ++ [c])) =
    match stat t (Some d) with
    | Ok Directory => lookup_node t (d ++ [c])
    | Ok (Regular _) => Fail ENOTDIR
    | Fail e => Fail e
    end.
Proof. unfold stat. apply walk_snoc. Qed.

(** Resolution of a path only looks at keys that are no longer than it. *)
Lemma walk_same t t' cur rest :
  (forall k, length k <= length cur + length rest -> t !! k = t' !! k) ->
  walk t cur rest = walk t' cur rest.
Proof.
  revert cur. induction rest as [|x rest IH]; intros cur H; cbn [walk].
  - rewrite (H cur) by lia. reflexivity.
  - rewrite (H cur) by lia.
    destruct (t' !! cur) as [[|data]|]; try reflexivity.
    apply IH. intros k Hk. apply H. rewrite length_app in Hk. cbn in *. lia.
Qed.

Lemma stat_same t t' d :
  (forall k, length k <= length d -> t !! k = t' !! k) ->
  stat t (Some d) = stat t' (Some d).
Proof. intros H. unfold stat. apply walk_same. exact H. Qed.

Lemma stat_insert_longer t d k n :
  length d < length k -> stat (<[k := n]> t) (Some d) = stat t (Some d).
Proof.
  intros H. apply stat_same. intros k' Hk'.
  apply lookup_insert_ne. intros ->. lia.
Qed.

Lemma stat_delete_longer t d k :
  length d < length k -> stat (delete k t) (Some d) = stat t (Some d).
Proof.
  intros H. apply stat_same. intros k' Hk'.
  apply lookup_delete_ne. intros ->. lia.
Qed.

Lemma walk_delete_self t cur rest n :
  walk t cur rest = Ok n -> walk (delete (cur ++ rest) t) cur rest = Fail ENOENT.
Proof.
  revert cur. induction rest as [|x rest IH]; intros cur; cbn [walk].
  - rewrite app_nil_r, lookup_delete_eq. reflexivity.
  - destruct (t !! cur) as [[|data]|] eqn:Hc; try discriminate.
    intros H. rewrite lookup_delete_ne, Hc.
    + replace (cur ++ x :: rest) with ((cur ++ [x]) ++ rest)
        by (rewrite <- app_assoc; reflexivity).
      apply IH, H.
    + intros E. apply (f_equal length) in E.
      rewrite length_app in E. cbn in E. lia.
Qed.

Lemma stat_delete_self t k n :
  stat t (Some k) = Ok n -> stat (delete k t) (Some k) = Fail ENOENT.
Proof. unfold stat. apply (walk_delete_self t [] k n). Qed.

Lemma walk_mono t t' cur rest n :
  t ⊆ t' -> walk t cur rest = Ok n -> walk t' cur rest = Ok n.
Proof.
  intros Hsub. revert cur. induction rest as [|x rest IH]; intros cur; cbn [walk].
  - destruct (t !! cur) as [m|] eqn:Hc; [|discriminate].
    rewrite (lookup_weaken _ _ _ _ Hc Hsub). auto.
  - destruct (t !! cur) as [m|] eqn:Hc; [|discriminate].
    rewrite (lookup_weaken _ _ _ _ Hc Hsub).
    destruct m; [apply IH | discriminate].
Qed.

Lemma parent_ready_snoc t d c :
  parent_ready t (d ++ [c]) =
    match stat t (Some d) with
    | Ok Directory => Ok tt
    | Ok (Regular _) => Fail ENOTDIR
    | Fail e => Fail e
    end.
Proof.
  unfold parent_ready. rewrite removelast_last.
  destruct (d ++ [c]) eqn:E; [|reflexivity].
  apply app_eq_nil in E as [_ E]. discriminate E.
Qed.

(** When the parent is a directory, an entry exists exactly when its key
    is bound. *)
Lemma stat_child t d c :
  stat t (Some d) = Ok Directory -> stat t (Some (d ++ [c])) = lookup_node t (d ++ [c]).
Proof. intros H. rewrite stat_snoc, H. reflexivity. Qed.

(** A path that resolves has a directory above it. *)
Lemma stat_parent t d c n :
  stat t (Some (d ++ [c])) = Ok n ->
  stat t (Some d) = Ok Directory /\ t !! (d ++ [c]) = Some n.
Proof.
  rewrite stat_snoc. destruct (stat t (Some d)) as [[|data]|e]; try discriminate.
  unfold lookup_node. destruct (t !! (d ++ [c])); [|discriminate].
  intros [= ->]. auto.
Qed.

End Walk.

(** Directory listings. *)
Section Listing.

Implicit Types (t : gmap fpath node) (d k : fpath) (x : string).

Lemma child_of_Some d k x : child_of d k = Some x <-> k = d ++ [x].
Proof.
  unfold child_of. split.
  - destruct (reverse k) as [|c rp] eqn:E; [discriminate|].
    case_decide as Hd; [|discriminate]. intros [= <-]. subst d.
    apply (f_equal reverse) in E. rewrite reverse_involutive in E.
    rewrite E, reverse_cons. reflexivity.
  - intros ->. rewrite reverse_app, reverse_singleton. cbn [app].
    rewrite reverse_involutive. case_decide; congruence.
Qed.

Lemma elem_of_ReadDir t d x : x ∈ ReadDir t d <-> is_Some (t !! (d ++ [x])).
Proof.
  unfold ReadDir. rewrite list_elem_of_omap. split.
  - intros ([k n] & Hin & Hc). cbn in Hc. apply child_of_Some in Hc. subst k.
    apply elem_of_map_to_list in Hin. eauto.
  - intros [n Hn]. exists (d ++ [x], n). split.
    + apply elem_of_map_to_list, Hn.
    + cbn. apply child_of_Some. reflexivity.
Qed.

Lemma NoDup_ReadDir t d : NoDup (ReadDir t d).
Proof.
  unfold ReadDir.
  assert (Hnd : NoDup (map_to_list t).*1) by apply NoDup_fst_map_to_list.
  induction (map_to_list t) as [|[k n] l IH]; cbn; [constructor|].
  apply NoDup_cons in Hnd as [Hk Hl]. cbn in Hk.
  destruct (child_of d k) as [x|] eqn:Hx; cbn; [|apply IH, Hl].
  constructor; [|apply IH, Hl].
  rewrite list_elem_of_omap. intros ([k' n'] & Hin & Hc). cbn in Hc.
  apply child_of_Some in Hx, Hc. subst k k'.
  apply Hk. apply list_elem_of_fmap. exists (d ++ [x], n'). auto.
Qed.

End Listing.

(** ** What each system call does to the world *)

Section Calls.

Implicit Types (w : world) (t : gmap fpath node) (k d : fpath).

Lemma bind_run {A B : Type} (m : M A) (f : A -> M B) w :
  (m ≫= f) w = let '(a, w') := m w in f a w'.
Proof. reflexivity. Qed.

Lemma syscall_spec w : syscall w = (next_fault w, advance w).
Proof. destruct w as [t n [|g fl] h]; reflexivity. Qed.

Lemma advance_calm w : calm w -> advance w = w.
Proof. destruct w as [t n fl h]. unfold calm. cbn. intros ->. reflexivity. Qed.

Lemma next_fault_calm w : calm w -> next_fault w = None.
Proof. unfold calm, next_fault. intros ->. reflexivity. Qed.

Lemma glitch_not_ENOENT (gl : glitch) : glitch_errno gl <> ENOENT.
Proof. destruct gl as [[] p]; discriminate. Qed.

Lemma os_Open_spec name w :
  os_Open name w =
    match next_fault w with
    | Some gl => ((None, Some (PathError "open" (glitch_errno gl))), advance w)
    | None =>
        match stat (fs w) name with
        | Fail e => ((None, Some (PathError "open" e)), advance w)
        | Ok _ => ((Some {| Name := name |}, None), advance w)
        end
    end.
Proof.
  unfold os_Open. rewrite bind_run, syscall_spec.
  destruct (next_fault w); [reflexivity|].
  rewrite bind_run. unfold get_fs. change (fs (advance w)) with (fs w).
  destruct (stat (fs w) name); reflexivity.
Qed.

Lemma File_Close_spec (h : File) w :
  File_Close (Some h) w =
    (match next_fault w with
     | Some gl => Some (PathError "close" (glitch_errno gl))
     | None => None
     end, advance w).
Proof.
  unfold File_Close. rewrite bind_run, syscall_spec.
  destruct (next_fault w); reflexivity.
Qed.

Lemma append_to_spec k data w :
  append_to (Some {| Name := Some k |}) data w =
    match fs w !! k with
    | Some (Regular old) => (None, set_fs (<[k := Regular (old ++ data)]> (fs w)) w)
    | _ => (Some (PathError "write" EBADF), w)
    end.
Proof.
  unfold append_to. rewrite bind_run. unfold get_fs. cbn [Name].
  destruct (fs w !! k) as [[|old]|]; reflexivity.
Qed.

Lemma os_Remove_spec name w :
  os_Remove name w =
    match next_fault w with
    | Some gl => (Some (PathError "remove" (glitch_errno gl)), advance w)
    | None =>
        match name with
        | None => (Some (PathError "remove" ENOENT), advance w)
        | Some q =>
            match stat (fs w) name with
            | Fail e => (Some (PathError "remove" e), advance w)
            | Ok (Regular _) => (None, set_fs (delete q (fs w)) (advance w))
            | Ok Directory =>
                match q, ReadDir (fs w) q with
                | [], _ => (Some (PathError "remove" EBUSY), advance w)
                | _, [] => (None, set_fs (delete q (fs w)) (advance w))
                | _, _ => (Some (PathError "remove" ENOTEMPTY), advance w)
                end
            end
        end
    end.
Proof.
  unfold os_Remove. rewrite bind_run, syscall_spec.
  destruct (next_fault w); [reflexivity|].
  rewrite bind_run. unfold get_fs. change (fs (advance w)) with (fs w).
  destruct name as [q|]; [|reflexivity].
  destruct (stat (fs w) (Some q)) as [[|data]|e]; try reflexivity.
  destruct q; [reflexivity|]. destruct (ReadDir (fs w) (s :: q)); reflexivity.
Qed.

Lemma os_Create_spec name w :
  os_Create name w =
    match next_fault w with
    | Some gl => ((None, Some (PathError "open" (glitch_errno gl))), advance w)
    | None =>
        match name with
        | None => ((None, Some (PathError "open" ENOENT)), advance w)
        | Some q =>
            match stat (fs w) name with
            | Ok Directory => ((None, Some (PathError "open" EISDIR)), advance w)
            | Ok (Regular _) =>
                ((Some {| Name := name |}, None),
                 set_fs (<[q := Regular []]> (fs w)) (advance w))
            | Fail _ =>
                match parent_ready (fs w) q with
                | Fail e => ((None, Some (PathError "open" e)), advance w)
                | Ok _ =>
                    ((Some {| Name := name |}, None),
                     set_fs (<[q := Regular []]> (fs w)) (advance w))
                end
            end
        end
    end.
Proof.
  unfold os_Create. rewrite bind_run, syscall_spec.
  destruct (next_fault w); [reflexivity|].
  rewrite bind_run. unfold get_fs. change (fs (advance w)) with (fs w).
  destruct name as [q|]; [|reflexivity].
  destruct (stat (fs w) (Some q)) as [[|data]|e]; try reflexivity.
  destruct (parent_ready (fs w) q); reflexivity.
Qed.

Lemma os_OpenFile_excl_spec q w :
  os_OpenFile_excl (Some q) w =
    match next_fault w with
    | Some gl => ((None, Some (PathError "open" (glitch_errno gl))), advance w)
    | None =>
        match stat (fs w) (Some q) with
        | Ok _ => ((None, Some (PathError "open" EEXIST)), advance w)
        | Fail _ =>
            match parent_ready (fs w) q with
            | Fail e => ((None, Some (PathError "open" e)), advance w)
            | Ok _ =>
                ((Some {| Name := Some q |}, None),
                 set_fs (<[q := Regular []]> (fs w)) (advance w))
            end
        end
    end.
Proof.
  unfold os_OpenFile_excl. rewrite bind_run, syscall_spec.
  destruct (next_fault w); [reflexivity|].
  rewrite bind_run. unfold get_fs. change (fs (advance w)) with (fs w).
  destruct (stat (fs w) (Some q)) as [n|e]; try reflexivity.
  destruct (parent_ready (fs w) q); reflexivity.
Qed.

Lemma os_Rename_spec o n w :
  os_Rename (Some o) (Some n) w =
    match next_fault w with
    | Some gl => (Some (LinkError "rename" (glitch_errno gl)), advance w)
    | None =>
        match stat (fs w) (Some o) with
        | Fail e => (Some (LinkError "rename" e), advance w)
        | Ok Directory => (Some (LinkError "rename" EINVAL), advance w)
        | Ok (Regular d) =>
            match stat (fs w) (Some n) with
            | Ok Directory => (Some (LinkError "rename" EEXIST), advance w)
            | Ok (Regular _) =>
                (None, set_fs (<[n := Regular d]> (delete o (fs w))) (advance w))
            | Fail _ =>
                match parent_ready (fs w) n with
                | Fail e => (Some (LinkError "rename" e), advance w)
                | Ok _ =>
                    (None, set_fs (<[n := Regular d]> (delete o (fs w))) (advance w))
                end
            end
        end
    end.
Proof.
  unfold os_Rename. rewrite bind_run, syscall_spec.
  destruct (next_fault w); [reflexivity|].
  rewrite bind_run. unfold get_fs. change (fs (advance w)) with (fs w).
  destruct (stat (fs w) (Some o)) as [[|d]|e]; try reflexivity.
  destruct (stat (fs w) (Some n)) as [[|d']|e]; try reflexivity.
  destruct (parent_ready (fs w) n); reflexivity.
Qed.

Lemma io_ReadFull_spec (h : File) (n : nat) w :
  io_ReadFull (Some h) (S n) w =
    match next_fault w with
    | Some gl => (([], Some (PathError "read" (glitch_errno gl))), advance w)
    | None =>
        match stat (fs w) (Name h) with
        | Fail _ => (([], Some (PathError "read" EBADF)), advance w)
        | Ok Directory => (([], Some (PathError "read" EISDIR)), advance w)
        | Ok (Regular d) =>
            if decide (S n <= length d) then ((take (S n) d, None), advance w)
            else match d with
                 | [] => (([], Some io_EOF), advance w)
                 | _ => ((d, Some io_ErrUnexpectedEOF), advance w)
                 end
        end
    end.
Proof.
  unfold io_ReadFull. rewrite bind_run, syscall_spec.
  destruct (next_fault w); [reflexivity|].
  rewrite bind_run. unfold get_fs. change (fs (advance w)) with (fs w).
  destruct (stat (fs w) (Name h)) as [[|d]|e]; try reflexivity.
  case_decide; [reflexivity|]. destruct d; reflexivity.
Qed.

End Calls.

(** ** The repository operations, step by step *)

Section Operations.

Implicit Types (r : Dir) (w : world) (t : gmap fpath node) (id : ID).

Lemma defer_run {A B : Type} (d : M B) (body : M A) w :
  defer d body w = (fst (body w), snd (d (snd (body w)))).
Proof.
  unfold defer. rewrite bind_run. destruct (body w) as [a w1].
  rewrite bind_run. cbn [fst snd]. destruct (d w1) as [b w2]. reflexivity.
Qed.

Lemma Test_spec r id w :
  Test r id w =
    match next_fault w with
    | Some gl => ((false, Some (PathError "open" (glitch_errno gl))), advance w)
    | None =>
        match stat (fs w) (object_file r id) with
        | Ok _ => ((true, None), advance (advance w))
        | Fail ENOENT => ((false, None), advance w)
        | Fail e => ((false, Some (PathError "open" e)), advance w)
        end
    end.
Proof.
  unfold Test. rewrite bind_run, os_Open_spec. fold (object_file r id).
  destruct (next_fault w) as [gl|].
  - rewrite defer_run. cbn [os_IsNotExist].
    pose proof (glitch_not_ENOENT gl) as Hne.
    destruct (glitch_errno gl); try reflexivity. congruence.
  - destruct (stat (fs w) (object_file r id)) as [n|e]; rewrite defer_run.
    + cbn [fst snd mret M_ret]. rewrite File_Close_spec. reflexivity.
    + destruct e; reflexivity.
Qed.

Lemma Test_fs r id w : fs (snd (Test r id w)) = fs w /\
                       history (snd (Test r id w)) = history w.
Proof.
  rewrite Test_spec. destruct (next_fault w); [split; reflexivity|].
  destruct (stat (fs w) (object_file r id)) as [n|[]]; split; reflexivity.
Qed.

Lemma Get_spec r id w :
  Get r id w =
    match next_fault w with
    | Some gl => ((None, Some (PathError "open" (glitch_errno gl))), advance w)
    | None =>
        match stat (fs w) (object_file r id) with
        | Ok _ => ((Some {| Name := object_file r id |}, None), advance w)
        | Fail e => ((None, Some (PathError "open" e)), advance w)
        end
    end.
Proof.
  unfold Get. rewrite bind_run, os_Open_spec. fold (object_file r id).
  destruct (next_fault w) as [gl|]; [reflexivity|].
  destruct (stat (fs w) (object_file r id)); reflexivity.
Qed.

(** [os.MkdirAll] leaves a directory behind and destroys nothing. *)
Lemma MkdirAll_from_ok (rest : list string) :
  forall (cur : fpath) w w',
    MkdirAll_from cur rest w = (None, w') ->
    walk (fs w') cur rest = Ok Directory /\ fs w ⊆ fs w'.
Proof.
  induction rest as [|c rest IH]; intros cur w w'; cbn [MkdirAll_from];
    rewrite bind_run; unfold get_fs;
    destruct (fs w !! cur) as [[|data]|] eqn:Hc; try discriminate.
  - intros [= <-]. cbn [walk]. rewrite Hc. auto.
  - rewrite bind_run, syscall_spec. destruct (next_fault w); [discriminate|].
    rewrite bind_run. cbn. intros [= <-]. cbn [walk fs].
    rewrite lookup_insert_eq. split; [reflexivity|].
    apply insert_subseteq, Hc.
  - intros H. apply IH in H as [Hw Hsub]. split; [|exact Hsub].
    cbn [walk]. rewrite (lookup_weaken _ _ _ _ Hc Hsub). exact Hw.
  - rewrite bind_run, syscall_spec. destruct (next_fault w); [discriminate|].
    rewrite bind_run. cbn [put_fs]. intros H. apply IH in H as [Hw Hsub].
    cbn [fs] in Hsub.
    assert (Hsub' : fs w ⊆ fs w').
    { etransitivity; [|exact Hsub]. apply insert_subseteq, Hc. }
    split; [|exact Hsub'].
    cbn [walk].
    assert (Hcur : fs w' !! cur = Some Directory).
    { eapply lookup_weaken; [|exact Hsub]. apply lookup_insert_eq. }
    rewrite Hcur. exact Hw.
Qed.

Lemma os_MkdirAll_ok (q : fpath) w w' :
  os_MkdirAll (Some q) w = (None, w') ->
  stat (fs w') (Some q) = Ok Directory /\ fs w ⊆ fs w'.
Proof. apply MkdirAll_from_ok. Qed.

Lemma os_MkdirAll_None w : fst (os_MkdirAll None w) <> None.
Proof. discriminate. Qed.

(** Once [create] has succeeded the three directories are there. *)
Lemma create_ok r w w' :
  create r w = (None, w') ->
  stat (fs w') (Some (objects_dir r)) = Ok Directory /\
  stat (fs w') (Some (refs_dir r)) = Ok Directory /\
  stat (fs w') (Some (tmp_dir r)) = Ok Directory.
Proof.
  unfold create.
  rewrite objects_dir_path, refs_dir_path, tmp_dir_path.
  rewrite bind_run.
  destruct (os_MkdirAll (path_Join [path r]) w) as [[e|] w0] eqn:H0; [discriminate|].
  rewrite bind_run.
  destruct (os_MkdirAll (Some (objects_dir r)) w0) as [[e|] w1] eqn:H1; [discriminate|].
  rewrite bind_run.
  destruct (os_MkdirAll (Some (refs_dir r)) w1) as [[e|] w2] eqn:H2; [discriminate|].
  rewrite bind_run.
  destruct (os_MkdirAll (Some (tmp_dir r)) w2) as [[e|] w3] eqn:H3; [discriminate|].
  intros [= <-].
  apply os_MkdirAll_ok in H1 as [D1 S1], H2 as [D2 S2], H3 as [D3 S3].
  unfold stat in *. repeat split.
  - eapply walk_mono; [|exact D1]. etransitivity; eassumption.
  - eapply walk_mono; [|exact D2]. exact S3.
  - exact D3.
Qed.

End Operations.

(** ** Put, step by step *)

Section PutSteps.

Implicit Types (r : Dir) (w : world) (t : gmap fpath node) (id : ID).

Lemma glitch_not_exist (gl : glitch) (op : string) :
  os_IsExist (PathError op (glitch_errno gl)) = false.
Proof. destruct gl as [[] p]; reflexivity. Qed.

(** A temporary file, once made, is new, empty, and directly inside the
    directory asked for; a failed attempt changes nothing. *)
Lemma TempFile_loop_spec (n : nat) (d : fpath) :
  forall w f err w',
    TempFile_loop n d "temp-" w = ((f, err), w') ->
    match err with
    | None =>
        exists x, f = Some {| Name := Some (d ++ [x]) |} /\
                  stat (fs w) (Some d) = Ok Directory /\
                  fs w !! (d ++ [x]) = None /\
                  fs w' = <[d ++ [x] := Regular []]> (fs w) /\
                  history w' = fs w' :: history w
    | Some e => (exists en, e = PathError "open" en) /\
                f = None /\ fs w' = fs w /\ history w' = history w
    end.
Proof.
  induction n as [|n IH]; intros w f err w'; cbn [TempFile_loop].
  - intros [= <- <- <-]. eauto.
  - rewrite bind_run. unfold nextSuffix. rewrite bind_run.
    rewrite temp_name, os_OpenFile_excl_spec.
    change (next_fault {| fs := fs w; rand := S (rand w); faults := faults w;
                          history := history w |}) with (next_fault w).
    change (fs {| fs := fs w; rand := S (rand w); faults := faults w;
                  history := history w |}) with (fs w).
    set (x := "temp-" +:+ NilEmpty.string_of_uint (Nat.to_uint (rand w))).
    set (w1 := advance _).
    assert (Hw1 : fs w1 = fs w /\ history w1 = history w) by (split; reflexivity).
    destruct Hw1 as [Hf1 Hh1].
    destruct (next_fault w) as [gl|].
    { rewrite glitch_not_exist. intros [= <- <- <-]. eauto. }
    destruct (stat (fs w) (Some (d ++ [x]))) as [nd|e] eqn:Hst.
    { cbn [os_IsExist]. intros H. apply IH in H. rewrite Hf1, Hh1 in H. exact H. }
    rewrite parent_ready_snoc.
    rewrite stat_snoc in Hst.
    destruct (stat (fs w) (Some d)) as [[|data]|e'] eqn:Hd.
    + intros [= <- <- <-]. exists x. unfold lookup_node in Hst.
      destruct (fs w !! (d ++ [x])) eqn:Hl; [discriminate|].
      repeat split; reflexivity.
    + cbn [os_IsExist]. intros [= <- <- <-]. eauto.
    + destruct (os_IsExist (PathError "open" e')) eqn:Hex.
      * intros H. apply IH in H. rewrite Hf1, Hh1, Hd in H. exact H.
      * intros [= <- <- <-]. eauto.
Qed.

Lemma ioutil_TempFile_spec (d : fpath) w f err w' :
  ioutil_TempFile (Some d) "temp-" w = ((f, err), w') ->
  match err with
  | None =>
      exists x, f = Some {| Name := Some (d ++ [x]) |} /\
                stat (fs w) (Some d) = Ok Directory /\
                fs w !! (d ++ [x]) = None /\
                fs w' = <[d ++ [x] := Regular []]> (fs w) /\
                history w' = fs w' :: history w
  | Some e => (exists en, e = PathError "open" en) /\
              f = None /\ fs w' = fs w /\ history w' = history w
  end.
Proof. apply TempFile_loop_spec. Qed.

(** In a calm world the first name drawn is taken when it is free. *)
Lemma ioutil_TempFile_calm (d : fpath) w :
  calm w ->
  stat (fs w) (Some d) = Ok Directory ->
  fs w !! (d ++ [temp_name_at (rand w)]) = None ->
  ioutil_TempFile (Some d) "temp-" w =
    ((Some {| Name := Some (d ++ [temp_name_at (rand w)]) |}, None),
     set_fs (<[d ++ [temp_name_at (rand w)] := Regular []]> (fs w)) (bump w)).
Proof.
  intros Hc Hd Hfree. unfold ioutil_TempFile.
  change 10000%N with (N.succ 9999). rewrite N2Nat.inj_succ.
  cbn [TempFile_loop]. rewrite bind_run. unfold nextSuffix. rewrite bind_run.
  rewrite temp_name, os_OpenFile_excl_spec. fold (temp_name_at (rand w)).
  fold (bump w).
  assert (Hcb : calm (bump w)) by exact Hc.
  rewrite (next_fault_calm _ Hcb), (advance_calm _ Hcb).
  change (fs (bump w)) with (fs w).
  rewrite stat_snoc, parent_ready_snoc, Hd. unfold lookup_node. rewrite Hfree.
  reflexivity.
Qed.

Lemma io_Copy_spec (k : fpath) (src : hashing_Reader) (old : list byte) w :
  fs w !! k = Some (Regular old) ->
  io_Copy (Some {| Name := Some k |}) src w =
    match next_fault w with
    | Some gl =>
        let part := take (progress gl) (content (source src)) in
        ((length part, Some (PathError "write" (glitch_errno gl)), feed src part),
         set_fs (<[k := Regular (old ++ part)]> (fs w)) (advance w))
    | None =>
        let data := content (source src) in
        ((length data,
          match failure (source src) with
          | Some msg => Some (ReaderError msg)
          | None => None
          end, feed src data),
         set_fs (<[k := Regular (old ++ data)]> (fs w)) (advance w))
    end.
Proof.
  intros Hk. unfold io_Copy. rewrite bind_run, syscall_spec.
  destruct (next_fault w) as [gl|].
  - rewrite bind_run, append_to_spec. change (fs (advance w)) with (fs w).
    rewrite Hk. reflexivity.
  - rewrite bind_run, append_to_spec. change (fs (advance w)) with (fs w).
    rewrite Hk. destruct (failure (source src)); reflexivity.
Qed.


(** Every run of [Put] ends in one of the three outcomes. *)
Lemma Put_outcomes r (rd : Reader) w res w' :
  Put r rd w = (res, w') -> Put_outcome r rd w res w'.
Proof.
  unfold Put. rewrite bind_run, tmp_dir_path.
  destruct (ioutil_TempFile (Some (tmp_dir r)) "temp-" w) as [[file err] w1] eqn:HT.
  apply ioutil_TempFile_spec in HT. destruct err as [e|].
  { destruct HT as ((en & ->) & _ & Hf & Hh). intros [= <- <-].
    apply Put_refused; assumption. }
  destruct HT as (x & -> & Htmp & Hfree & Hf1 & Hh1).
  set (tk := tmp_dir r ++ [x]) in *.
  assert (Hk1 : fs w1 !! tk = Some (Regular [])) by (rewrite Hf1; apply lookup_insert_eq).
  rewrite bind_run, (io_Copy_spec tk _ [] w1 Hk1).
  cbn [hashing_NewReader source content app].
  destruct (next_fault w1) as [gl|].
  { intros [= <- <-].
    eapply (Put_abandoned _ _ _ _ x _ [_; _]); fold tk.
    - exact Hfree.
    - cbn [fs set_fs]. rewrite Hf1, insert_insert_eq. reflexivity.
    - cbn [history set_fs advance]. rewrite Hh1. reflexivity.
    - intros s Hs. cbn [fs set_fs] in Hs. rewrite Hf1, insert_insert_eq in Hs.
      apply elem_of_cons in Hs as [->|Hs]; [eauto|].
      apply list_elem_of_singleton in Hs as ->. eauto.
    - intros en [=]. }
  set (w2 := set_fs _ (advance w1)).
  assert (Hf2 : fs w2 = <[tk := Regular (content rd)]> (fs w)).
  { subst w2. cbn [fs set_fs]. rewrite Hf1, insert_insert_eq. reflexivity. }
  assert (Hh2 : history w2 = [fs w2; fs w1] ++ history w).
  { subst w2. cbn [history set_fs advance fs]. rewrite Hh1. reflexivity. }
  assert (Hsteps : forall s, s ∈ [fs w2; fs w1] ->
                             exists p, s = <[tk := Regular p]> (fs w)).
  { intros s Hs. rewrite Hf2, Hf1 in Hs.
    apply elem_of_cons in Hs as [->|Hs]; [eauto|].
    apply list_elem_of_singleton in Hs as ->. eauto. }
  clearbody w2.
  destruct (failure rd) as [msg|] eqn:Hfail.
  { intros [= <- <-].
    apply (Put_abandoned _ _ _ _ x (content rd) [fs w2; fs w1]); fold tk; auto. }
  rewrite bind_run, File_Close_spec.
  destruct (next_fault w2) as [gl|].
  { intros [= <- <-].
    apply (Put_abandoned _ _ _ _ x (content rd) [fs w2; fs w1]); fold tk; auto. }
  rewrite bind_run. cbn [File_Name Name].
  change (hashing_Hash (feed (hashing_NewReader rd (hash r)) (content rd)))
    with (Sum (hash r) (content rd)).
  fold (object_file r (Sum (hash r) (content rd))).
  destruct (object_file_some r (Sum (hash r) (content rd))) as (d & c & Hk & Hlen & Hout).
  rewrite Hk, os_Rename_spec.
  change (fs (advance w2)) with (fs w2).
  assert (Hlt : length d < length tk).
  { subst tk. unfold tmp_dir. rewrite !length_app. cbn. lia. }
  assert (Hst : stat (fs w2) (Some tk) = Ok (Regular (content rd))).
  { subst tk. rewrite stat_snoc, Hf2, stat_insert_longer, Htmp.
    - unfold lookup_node. rewrite lookup_insert_eq. reflexivity.
    - rewrite length_app. cbn. lia. }
  assert (Hparent : stat (fs w2) (Some d) = stat (fs w) (Some d)).
  { rewrite Hf2. apply stat_insert_longer, Hlt. }
  assert (Hdone : stat (fs w2) (Some d) = Ok Directory ->
                  stat (<[d ++ [c] := Regular (content rd)]> (fs w)) (Some (d ++ [c]))
                  = Ok (Regular (content rd))).
  { intros Hd. rewrite stat_snoc, stat_insert_longer by (rewrite length_app; cbn; lia).
    rewrite <- Hparent, Hd. unfold lookup_node. rewrite lookup_insert_eq. reflexivity. }
  assert (Hfs : <[d ++ [c] := Regular (content rd)]> (delete tk (fs w2))
                = <[d ++ [c] := Regular (content rd)]> (fs w)).
  { rewrite Hf2, delete_insert_eq, delete_id by exact Hfree. reflexivity. }
  destruct (next_fault (advance w2)) as [gl|].
  { intros [= <- <-].
    apply (Put_abandoned _ _ _ _ x (content rd) [fs w2; fs w1]); fold tk; auto. }
  rewrite Hst.
  destruct (stat (fs w2) (Some (d ++ [c]))) as [[|old]|e] eqn:Hdst.
  - intros [= <- <-].
    apply (Put_abandoned _ _ _ _ x (content rd) [fs w2; fs w1]); fold tk; auto.
  - cbn [mret M_ret]. intros [= <- <-].
    apply stat_parent in Hdst as [Hd _].
    apply (Put_published _ _ _ x (d ++ [c])); fold tk;
      cbn [fs history set_fs advance]; rewrite ?Hfs; auto.
    rewrite Hh2, Hf2, Hf1. reflexivity.
  - rewrite parent_ready_snoc.
    destruct (stat (fs w2) (Some d)) as [[|data]|e'] eqn:Hd.
    + cbn [mret M_ret]. intros [= <- <-].
      apply (Put_published _ _ _ x (d ++ [c])); fold tk;
        cbn [fs history set_fs advance]; rewrite ?Hfs; auto.
      rewrite Hh2, Hf2, Hf1. reflexivity.
    + intros [= <- <-].
      apply (Put_abandoned _ _ _ _ x (content rd) [fs w2; fs w1]); fold tk; auto.
    + intros [= <- <-].
      apply (Put_abandoned _ _ _ _ x (content rd) [fs w2; fs w1]); fold tk; auto.
Qed.


(** In a calm world with the directories in place, a free temporary name
    and nothing but a file that could be in the way, [Put] goes through. *)
Lemma Put_calm r (rd : Reader) w :
  calm w ->
  failure rd = None ->
  stat (fs w) (Some (tmp_dir r)) = Ok Directory ->
  fs w !! (tmp_dir r ++ [temp_name_at (rand w)]) = None ->
  stat (fs w) (Some (objects_dir r)) = Ok Directory ->
  Sum (hash r) (content rd) <> [] ->
  fs w !! (objects_dir r ++ [ID_String (Sum (hash r) (content rd))]) <> Some Directory ->
  exists w', Put r rd w = ((Sum (hash r) (content rd), None), w') /\ calm w'.
Proof.
  intros Hc Hfail Htmp Hfree Hobj Hne Hnd.
  unfold Put.
  rewrite bind_run, tmp_dir_path, (ioutil_TempFile_calm _ _ Hc Htmp Hfree).
  set (tk := tmp_dir r ++ [temp_name_at (rand w)]) in *.
  set (w1 := set_fs _ (bump w)).
  assert (Hc1 : calm w1) by exact Hc.
  assert (Hk1 : fs w1 !! tk = Some (Regular [])) by apply lookup_insert_eq.
  rewrite bind_run, (io_Copy_spec tk _ [] w1 Hk1).
  rewrite (next_fault_calm _ Hc1), (advance_calm _ Hc1).
  cbn [hashing_NewReader source content app]. rewrite Hfail.
  set (w2 := set_fs _ w1).
  assert (Hc2 : calm w2) by exact Hc.
  assert (Hf2 : fs w2 = <[tk := Regular (content rd)]> (fs w)).
  { subst w2 w1. cbn [fs set_fs bump]. apply insert_insert_eq. }
  rewrite bind_run, File_Close_spec, (next_fault_calm _ Hc2), (advance_calm _ Hc2).
  rewrite bind_run. cbn [File_Name Name].
  change (hashing_Hash (feed (hashing_NewReader rd (hash r)) (content rd)))
    with (Sum (hash r) (content rd)).
  fold (object_file r (Sum (hash r) (content rd))).
  rewrite (object_file_plain r _ Hne), os_Rename_spec.
  rewrite (next_fault_calm _ Hc2), (advance_calm _ Hc2).
  set (k := objects_dir r ++ [ID_String (Sum (hash r) (content rd))]) in *.
  assert (Hlt1 : length (tmp_dir r) < length tk).
  { subst tk. rewrite length_app. cbn. lia. }
  assert (Hlt2 : length (objects_dir r) < length tk).
  { subst tk. unfold objects_dir, tmp_dir. rewrite !length_app. cbn. lia. }
  assert (Hkt : tk <> k).
  { subst tk k. unfold objects_dir, tmp_dir. rewrite <- !app_assoc.
    intros E. apply app_inv_head in E. discriminate E. }
  assert (Hst : stat (fs w2) (Some tk) = Ok (Regular (content rd))).
  { subst tk. rewrite stat_snoc, Hf2, stat_insert_longer, Htmp by exact Hlt1.
    unfold lookup_node. rewrite lookup_insert_eq. reflexivity. }
  assert (Hod : stat (fs w2) (Some (objects_dir r)) = Ok Directory).
  { rewrite Hf2, stat_insert_longer by exact Hlt2. exact Hobj. }
  assert (Hsk : stat (fs w2) (Some k) = lookup_node (fs w) k).
  { subst k. rewrite stat_snoc, Hod. unfold lookup_node.
    rewrite Hf2, lookup_insert_ne by exact Hkt. reflexivity. }
  rewrite Hst, Hsk. unfold lookup_node.
  destruct (fs w !! k) as [[|old]|] eqn:Hk; [congruence| |].
  - eexists. split; [reflexivity | exact Hc].
  - subst k. rewrite parent_ready_snoc, Hod.
    eexists. split; [reflexivity | exact Hc].
Qed.

End PutSteps.

(** ** Link and Resolve, step by step *)

Section AliasSteps.

Implicit Types (r : Dir) (w : world) (id : ID) (name : string).

Lemma io_ReadFull_calm (h : File) (n : nat) (d : list byte) w :
  calm w ->
  stat (fs w) (Name h) = Ok (Regular d) ->
  io_ReadFull (Some h) n w =
    (if decide (n <= length d) then (take n d, None)
     else match d with
          | [] => ([], Some io_EOF)
          | _ => (d, Some io_ErrUnexpectedEOF)
          end, w).
Proof.
  intros Hc Hst. destruct n as [|n].
  - cbn [io_ReadFull]. rewrite decide_True by lia. reflexivity.
  - rewrite io_ReadFull_spec, (next_fault_calm _ Hc), (advance_calm _ Hc), Hst.
    case_decide; [reflexivity|]. destruct d; reflexivity.
Qed.

Lemma Resolve_open_fails r name w (e : errno) :
  next_fault w = None ->
  stat (fs w) (alias_file r name) = Fail e ->
  fst (Resolve r name w) = ([], Some (PathError "open" e)).
Proof.
  intros Hq Hst. unfold Resolve. rewrite bind_run, os_Open_spec, Hq.
  fold (alias_file r name). rewrite Hst, defer_run. reflexivity.
Qed.

Lemma Resolve_calm_regular r name (d : list byte) w :
  calm w ->
  stat (fs w) (alias_file r name) = Ok (Regular d) ->
  fst (Resolve r name w) =
    if decide (Size (hash r) * 2 <= length d) then
      match hex_Decode (take (Size (hash r) * 2) d) with
      | (_, Some e) => ([], Some e)
      | (id, None) => (id, None)
      end
    else ([], Some (match d with [] => io_EOF | _ => io_ErrUnexpectedEOF end)).
Proof.
  intros Hc Hst. unfold Resolve.
  rewrite bind_run, os_Open_spec, (next_fault_calm _ Hc), (advance_calm _ Hc).
  fold (alias_file r name). rewrite Hst, defer_run. cbn [fst].
  rewrite bind_run, (io_ReadFull_calm _ _ d w Hc) by exact Hst.
  case_decide.
  - destruct (hex_Decode (take (Size (hash r) * 2) d)) as [id [e|]]; reflexivity.
  - destruct d; reflexivity.
Qed.

Lemma classify_decode_error (e : error) :
  is_decode_error e = true -> classify e = CorruptDataError.
Proof. destruct e; cbn; congruence. Qed.

(** In a calm world [Link] of a stored ID writes the hex text of the ID to
    the alias file. *)
Lemma Link_calm r name id w :
  calm w ->
  name <> "" -> name <> "." -> name <> ".." ->
  fst (Test r id w) = (true, None) ->
  stat (fs w) (Some (refs_dir r)) = Ok Directory ->
  fs w !! (refs_dir r ++ [Name_Encode name]) <> Some Directory ->
  exists w',
    Link r name id w = (None, w') /\ calm w' /\
    fs w' = <[refs_dir r ++ [Name_Encode name] :=
                Regular (list_byte_of_string (hex_EncodeToString id))]> (fs w).
Proof.
  intros Hc H0 H1 H2 HT Hrefs Hnd. unfold Link.
  rewrite bind_run. rewrite Test_spec, (next_fault_calm _ Hc) in *.
  rewrite !(advance_calm _ Hc) in *.
  destruct (stat (fs w) (object_file r id)) as [n|e]; [|destruct e; discriminate].
  cbn [negb]. rewrite bind_run.
  fold (alias_file r name). rewrite (alias_file_plain r name H0 H1 H2).
  set (k := refs_dir r ++ [Name_Encode name]) in *.
  rewrite os_Create_spec, (next_fault_calm _ Hc), (advance_calm _ Hc).
  assert (Hsk : stat (fs w) (Some k) = lookup_node (fs w) k).
  { subst k. apply stat_child, Hrefs. }
  assert (Hpr : parent_ready (fs w) k = Ok tt).
  { subst k. rewrite parent_ready_snoc, Hrefs. reflexivity. }
  set (w1 := set_fs (<[k := Regular []]> (fs w)) w).
  assert (Hc1 : calm w1) by exact Hc.
  assert (Hrun : defer (File_Close (Some {| Name := Some k |}))
                   (File_Write (Some {| Name := Some k |})
                      (list_byte_of_string (hex_EncodeToString id))
                    ≫= (fun _ => mret None)) w1
                 = (None : option error,
                    set_fs (<[k := Regular (list_byte_of_string (hex_EncodeToString id))]>
                              (fs w1)) w1)).
  { rewrite defer_run, bind_run. unfold File_Write.
    rewrite bind_run, syscall_spec, (next_fault_calm _ Hc1), (advance_calm _ Hc1).
    rewrite bind_run, append_to_spec.
    assert (Hk1 : fs w1 !! k = Some (Regular [])) by apply lookup_insert_eq.
    rewrite Hk1. cbn [fst snd mret M_ret app].
    rewrite File_Close_spec. cbn [snd].
    set (w2 := set_fs _ w1). assert (Hc2 : calm w2) by exact Hc.
    rewrite (advance_calm _ Hc2). reflexivity. }
  rewrite Hsk. unfold lookup_node.
  destruct (fs w !! k) as [[|old]|] eqn:Hk; [congruence | |rewrite Hpr];
    fold w1; rewrite Hrun; eexists; (split; [reflexivity|]);
    (split; [exact Hc|]); cbn [fs set_fs]; subst w1; cbn [fs set_fs];
    apply insert_insert_eq.
Qed.

(** Whatever happens to the write, [Link] reports at most the error of
    [Test], the constraint error, or the error of creating the file. *)
Lemma Link_reports r name id w :
  fst (Link r name id w) = None \/
  fst (Link r name id w) = Some ErrIDDoesNotExist \/
  exists en, fst (Link r name id w) = Some (PathError "open" en).
Proof.
  unfold Link. rewrite bind_run, Test_spec.
  destruct (next_fault w) as [gl|]; [right; right; eexists; reflexivity|].
  destruct (stat (fs w) (object_file r id)) as [n|e].
  - cbn [negb]. rewrite bind_run, os_Create_spec.
    destruct (next_fault (advance (advance w))) as [gl|];
      [rewrite defer_run; right; right; eexists; reflexivity|].
    destruct (path_Join [path r; refPath; Name_Encode name]) as [q|];
      [|rewrite defer_run; right; right; eexists; reflexivity].
    destruct (stat (fs (advance (advance w))) (Some q)) as [[|data]|e];
      [rewrite defer_run; right; right; eexists; reflexivity
      |rewrite defer_run, bind_run;
       destruct (File_Write _ _ _) as [x wx]; left; reflexivity|].
    destruct (parent_ready (fs (advance (advance w))) q);
      [rewrite defer_run, bind_run;
       destruct (File_Write _ _ _) as [x wx]; left; reflexivity
      |rewrite defer_run; right; right; eexists; reflexivity].
  - destruct e; try (right; right; eexists; reflexivity).
    right; left; reflexivity.
Qed.

End AliasSteps.

(** ** Properties of the repository *)

Section Claims.

Implicit Types (r : Dir) (w : world) (id : ID) (name : string).

Lemma ID_Equal_refl id : ID_Equal id id = true.
Proof. unfold ID_Equal, bytes_Equal. apply bool_decide_eq_true_2. reflexivity. Qed.

(** C9. The hex text of an ID compares equal to the ID, and a string that
    is not an even number of hex digits makes [EqualString] return a decode
    error instead of a bare [false]. *)
Theorem EqualString_round_trip id (other : string) :
  ID_EqualString id (ID_String id) = (true, None) /\
  (is_hex_text (list_byte_of_string other) = false ->
   exists e, ID_EqualString id other = (false, Some e) /\ is_decode_error e = true).
Proof.
  unfold ID_EqualString, hex_DecodeString, ID_String. split.
  - rewrite hex_Decode_Encode. rewrite ID_Equal_refl. reflexivity.
  - intros Hbad.
    destruct (hex_Decode (list_byte_of_string other)) as [out [e|]] eqn:E.
    + exists e. split; [reflexivity|].
      apply (hex_Decode_error (list_byte_of_string other)). rewrite E. reflexivity.
    + assert (Hok : is_hex_text (list_byte_of_string other) = true).
      { apply hex_Decode_ok_iff. rewrite E. reflexivity. }
      congruence.
Qed.

Lemma EqualString_round_trip_witness :
  ID_EqualString [x05; xff] "05ff" = (true, None) /\
  exists e, ID_EqualString [x05; xff] "05f" = (false, Some e) /\ is_decode_error e = true.
Proof.
  destruct (EqualString_round_trip [x05; xff] "05f") as [H1 H2].
  split; [exact H1 | apply H2; reflexivity].
Defined.

(** C10. [create] leaves [objects/] in place, and wherever [objects/] is a
    directory [Test] of the empty ID answers [(true, nil)], whatever the
    directory holds: the path it opens is [objects/] itself. *)
Theorem Test_empty_ID_after_create r w w' :
  (create r w = (None, w') -> stat (fs w') (Some (objects_dir r)) = Ok Directory) /\
  (stat (fs w') (Some (objects_dir r)) = Ok Directory ->
   next_fault w' = None ->
   object_file r [] = Some (objects_dir r) /\
   fst (Test r [] w') = (true, None)).
Proof.
  split.
  - intros Hc. apply create_ok in Hc as (Ho & _ & _). exact Ho.
  - intros Ho Hq. split; [apply object_file_empty|].
    rewrite Test_spec, Hq, object_file_empty, Ho. reflexivity.
Qed.

Lemma Test_empty_ID_after_create_witness :
  create demo_repo bare_world = (None, fresh_world) /\
  ReadDir (fs fresh_world) (objects_dir demo_repo) = [] /\
  fst (Test demo_repo [] fresh_world) = (true, None).
Proof.
  destruct (Test_empty_ID_after_create demo_repo bare_world fresh_world) as [Hdir Htest].
  assert (Hc : create demo_repo bare_world = (None, fresh_world)) by (vm_compute; reflexivity).
  split; [exact Hc|]. split; [vm_compute; reflexivity|].
  apply Htest; [exact (Hdir Hc) | vm_compute; reflexivity].
Defined.

(** C7. Linking an ID that [Test] reports absent fails with the constraint
    error and leaves the tree, hence [refs/], as it was. *)
Theorem Link_of_missing_ID r name id w :
  fst (Test r id w) = (false, None) ->
  fst (Link r name id w) = Some ErrIDDoesNotExist /\
  classify ErrIDDoesNotExist = ConstraintError /\
  fs (snd (Link r name id w)) = fs w /\
  ReadDir (fs (snd (Link r name id w))) (refs_dir r) = ReadDir (fs w) (refs_dir r).
Proof.
  intros HT. unfold Link. rewrite bind_run.
  destruct (Test_fs r id w) as [Hfs _].
  destruct (Test r id w) as [[ex err] w1]. cbn [fst snd] in *.
  injection HT as -> ->. cbn [negb mret M_ret fst snd].
  rewrite Hfs. auto.
Qed.

Lemma Link_of_missing_ID_witness :
  fst (Test demo_repo [x06] stored_world) = (false, None) /\
  fst (Link demo_repo "x" [x06] stored_world) = Some ErrIDDoesNotExist /\
  ReadDir (fs (snd (Link demo_repo "x" [x06] stored_world))) (refs_dir demo_repo)
  = ReadDir (fs stored_world) (refs_dir demo_repo).
Proof.
  split; [vm_compute; reflexivity|].
  destruct (Link_of_missing_ID demo_repo "x" [x06] stored_world) as (H1 & _ & _ & H2);
    [vm_compute; reflexivity|].
  split; [exact H1 | exact H2].
Defined.

(** C8. [Test] answers [true] right after the [Put] that produced the ID
    and [false] right after a successful [Remove]; an absent object gives
    [(false, nil)], any other failure of the lookup gives [false] together
    with the error. *)
Theorem Test_existence_symmetry r id w :
  (forall rd w0, Put r rd w0 = ((id, None), w) -> next_fault w = None ->
                 fst (Test r id w) = (true, None)) /\
  (forall w0, Remove r id w0 = (None, w) -> next_fault w = None ->
              fst (Test r id w) = (false, None)) /\
  (next_fault w = None -> stat (fs w) (object_file r id) = Fail ENOENT ->
   fst (Test r id w) = (false, None)) /\
  (forall e, next_fault w = None -> stat (fs w) (object_file r id) = Fail e ->
             e <> ENOENT ->
             fst (Test r id w) = (false, Some (PathError "open" e)) /\
             classify (PathError "open" e) = IOError) /\
  (forall gl, next_fault w = Some gl ->
              fst (Test r id w) = (false, Some (PathError "open" (glitch_errno gl))) /\
              classify (PathError "open" (glitch_errno gl)) = IOError).
Proof.
  split; [|split; [|split; [|split]]].
  - intros rd w0 HP Hq. apply Put_outcomes in HP.
    inversion HP as [| |x k w1 Hfail Hk Hfree Hst Hfs Hh]; subst.
    rewrite Test_spec, Hq, Hk, Hst. reflexivity.
  - intros w0 HR Hq. unfold Remove in HR. rewrite os_Remove_spec in HR.
    fold (object_file r id) in HR. rewrite Test_spec, Hq.
    destruct (next_fault w0); [discriminate|].
    destruct (object_file r id) as [q|]; [|discriminate].
    destruct (stat (fs w0) (Some q)) as [[|data]|e] eqn:Hst; [| |discriminate].
    + destruct q as [|c q]; [discriminate|].
      destruct (ReadDir (fs w0) (c :: q)); [|discriminate].
      injection HR as <-. cbn [fs set_fs].
      rewrite (stat_delete_self _ _ _ Hst). reflexivity.
    + injection HR as <-. cbn [fs set_fs].
      rewrite (stat_delete_self _ _ _ Hst). reflexivity.
  - intros Hq Hst. rewrite Test_spec, Hq, Hst. reflexivity.
  - intros e Hq Hst Hne. rewrite Test_spec, Hq, Hst.
    destruct e; (congruence || (split; reflexivity)).
  - intros gl Hq. rewrite Test_spec, Hq. split; [reflexivity|].
    pose proof (glitch_not_ENOENT gl) as Hne.
    destruct (glitch_errno gl); (congruence || reflexivity).
Qed.

Lemma Test_existence_symmetry_witness :
  fst (Test demo_repo [x05] stored_world) = (true, None) /\
  fst (Test demo_repo [x05] removed_world) = (false, None) /\
  fst (Test demo_repo [x06] stored_world) = (false, None) /\
  fst (Test demo_repo [x05] blocked_world) = (false, Some (PathError "open" ENOTDIR)) /\
  fst (Test demo_repo [x05]
         (with_faults [Some {| cause := FIo; progress := 0 |}] stored_world))
  = (false, Some (PathError "open" EIO)).
Proof.
  split; [|split; [|split; [|split]]].
  - destruct (Test_existence_symmetry demo_repo [x05] stored_world) as (H & _).
    apply (H hello fresh_world); vm_compute; reflexivity.
  - destruct (Test_existence_symmetry demo_repo [x05] removed_world) as (_ & H & _).
    apply (H stored_world); vm_compute; reflexivity.
  - destruct (Test_existence_symmetry demo_repo [x06] stored_world) as (_ & _ & H & _).
    apply H; vm_compute; reflexivity.
  - destruct (Test_existence_symmetry demo_repo [x05] blocked_world) as (_ & _ & _ & H & _).
    apply (H ENOTDIR); vm_compute; (reflexivity || discriminate).
  - destruct (Test_existence_symmetry demo_repo [x05]
                (with_faults [Some {| cause := FIo; progress := 0 |}] stored_world))
      as (_ & _ & _ & _ & H).
    apply (H {| cause := FIo; progress := 0 |}). reflexivity.
Defined.

(** C1. Whenever [Put] returns an ID, it is the digest of the content under
    the repository's hash function and [Get] of it yields a stream with that
    content; and in a calm world with the directory tree in place [Put] does
    return. *)
Theorem Put_then_Get r (rd : Reader) w :
  (forall id w1,
     Put r rd w = ((id, None), w1) ->
     id = Sum (hash r) (content rd) /\
     (next_fault w1 = None ->
      exists f w2, Get r id w1 = ((Some f, None), w2) /\
                   ReadAll (fs w2) (Some f) = Some (content rd))) /\
  (calm w ->
   failure rd = None ->
   stat (fs w) (Some (tmp_dir r)) = Ok Directory ->
   fs w !! (tmp_dir r ++ [temp_name_at (rand w)]) = None ->
   stat (fs w) (Some (objects_dir r)) = Ok Directory ->
   Sum (hash r) (content rd) <> [] ->
   fs w !! (objects_dir r ++ [ID_String (Sum (hash r) (content rd))]) <> Some Directory ->
   exists w1, Put r rd w = ((Sum (hash r) (content rd), None), w1)).
Proof.
  split.
  - intros id w1 HP. apply Put_outcomes in HP.
    inversion HP as [| |x k w1' Hfail Hk Hfree Hst Hfs Hh]; subst.
    split; [reflexivity|]. intros Hq.
    rewrite Get_spec, Hq, Hk, Hst. eexists. eexists. split; [reflexivity|].
    unfold ReadAll. cbn [Name]. change (fs (advance w1)) with (fs w1).
    rewrite Hst. reflexivity.
  - intros Hc Hfail Htmp Hfree Hobj Hne Hnd.
    destruct (Put_calm r rd w Hc Hfail Htmp Hfree Hobj Hne Hnd) as (w1 & HP & _).
    exists w1. exact HP.
Qed.

Lemma Put_then_Get_witness :
  Put demo_repo hello fresh_world = (([x05], None), stored_world) /\
  exists f w2,
    Get demo_repo [x05] stored_world = ((Some f, None), w2) /\
    ReadAll (fs w2) (Some f) = Some (list_byte_of_string "hello").
Proof.
  destruct (Put_then_Get demo_repo hello fresh_world) as [Hgen Hcalm].
  destruct Hcalm as (w1 & HP); try (vm_compute; (reflexivity || discriminate)).
  assert (E : w1 = stored_world) by (apply (f_equal snd) in HP; symmetry; exact HP).
  subst w1. split; [exact HP|].
  apply (Hgen _ _ HP). vm_compute. reflexivity.
Defined.

(** A name occurs once in a directory listing. *)
Lemma ReadDir_once (t : gmap fpath node) (d : fpath) (x : string) :
  is_Some (t !! (d ++ [x])) ->
  length (filter (fun y => y = x) (ReadDir t d)) = 1.
Proof.
  intros Hx. apply elem_of_ReadDir in Hx.
  pose proof (NoDup_ReadDir t d) as Hnd.
  induction (ReadDir t d) as [|y l IH]; [inversion Hx|].
  apply NoDup_cons in Hnd as [Hy Hl].
  rewrite filter_cons. case_decide as Hyx.
  - subst y. cbn [length]. f_equal.
    replace (filter (fun y => y = x) l) with (@nil string); [reflexivity|].
    symmetry. apply length_zero_iff_nil; apply Nat.le_0_r.
    clear -Hy. induction l as [|z l IHl]; [cbn; lia|].
    apply not_elem_of_cons in Hy as [Hz Hl]. rewrite filter_cons.
    case_decide; [congruence | apply IHl, Hl].
  - apply elem_of_cons in Hx as [->|Hx]; [congruence|]. apply IH; assumption.
Qed.

(** C2. Two calls of [Put] with the same content return the same ID, and
    after both the listing of [objects/] has one entry under that ID's
    name: the second rename replaces the object by identical bytes, so the
    tree after the second call is the tree after the first. *)
Theorem Put_twice_one_object r (rd rd' : Reader) w id1 w1 id2 w2 :
  content rd' = content rd ->
  Sum (hash r) (content rd) <> [] ->
  Put r rd w = ((id1, None), w1) ->
  Put r rd' w1 = ((id2, None), w2) ->
  id2 = id1 /\
  length (filter (fun x => x = ID_String id1) (ReadDir (fs w2) (objects_dir r))) = 1 /\
  fs w2 !! (objects_dir r ++ [ID_String id1]) = Some (Regular (content rd)) /\
  fs w2 = fs w1.
Proof.
  intros Hsame Hne HP1 HP2. apply Put_outcomes in HP1, HP2.
  inversion HP1 as [| |x k w1' Hfail Hk Hfree Hst Hfs Hh]; subst.
  inversion HP2 as [| |x' k' w2' Hfail' Hk' Hfree' Hst' Hfs' Hh']; subst.
  rewrite Hsame in *. rewrite Hk in Hk'. injection Hk' as <-.
  rewrite (object_file_plain r _ Hne) in Hk. injection Hk as <-.
  assert (Hfinal : fs w2 = fs w1).
  { rewrite Hfs', Hfs. apply insert_insert_eq. }
  assert (Hthere : fs w2 !! (objects_dir r ++ [ID_String (Sum (hash r) (content rd))])
                   = Some (Regular (content rd))).
  { rewrite Hfinal, Hfs. apply lookup_insert_eq. }
  split; [reflexivity|]. split; [|split; assumption].
  apply ReadDir_once. rewrite Hthere. eauto.
Qed.

Lemma Put_twice_one_object_witness :
  exists w2,
    Put demo_repo hello stored_world = (([x05], None), w2) /\
    ReadDir (fs w2) (objects_dir demo_repo) = ["05"] /\
    fs w2 = fs stored_world.
Proof.
  exists (snd (Put demo_repo hello stored_world)).
  split; [vm_compute; reflexivity|]. split; [vm_compute; reflexivity|].
  apply (Put_twice_one_object demo_repo hello hello fresh_world [x05] stored_world [x05]);
    vm_compute; (reflexivity || discriminate).
Defined.

(** C4. [Put] publishes only by its final rename.  When it returns an
    error, no tree an observer could have seen during the call, nor the one
    it leaves, differs from the initial tree outside [tmp/], so nothing
    appeared under any object name; when the error comes from the rename,
    the temporary file is still in [tmp/] with the whole content.  When it
    succeeds, every tree seen before the last one is unchanged outside
    [tmp/], and the last one holds the complete content under the final
    name. *)
Theorem Put_publishes_by_rename r (rd : Reader) w res w' :
  Put r rd w = (res, w') ->
  exists steps,
    history w' = steps ++ history w /\
    match snd res with
    | Some e =>
        fst res = [] /\
        (forall s, s ∈ fs w' :: steps -> same_outside_tmp r s (fs w)) /\
        (forall id k, object_file r id = Some k -> fs w' !! k = fs w !! k) /\
        (forall en, e = LinkError "rename" en ->
           exists x, fs w !! (tmp_dir r ++ [x]) = None /\
                     fs w' !! (tmp_dir r ++ [x]) = Some (Regular (content rd)))
    | None =>
        forall s, s ∈ steps ->
          same_outside_tmp r s (fs w) \/
          (s = fs w' /\
           stat s (object_file r (fst res)) = Ok (Regular (content rd)))
    end.
Proof.
  intros HP. apply Put_outcomes in HP.
  assert (Hins : forall x p, same_outside_tmp r (<[tmp_dir r ++ [x] := Regular p]> (fs w)) (fs w)).
  { intros x p k Hk. apply lookup_insert_ne. intros E. apply (Hk x). auto. }
  assert (Hobj : forall t, same_outside_tmp r t (fs w) ->
                 forall id k, object_file r id = Some k -> t !! k = fs w !! k).
  { intros t Ht id k Hk.
    destruct (object_file_some r id) as (d & c & Hk' & _ & Hout).
    rewrite Hk in Hk'. injection Hk' as ->. apply Ht, Hout. }
  inversion HP as [en w1 Hfs Hh | e x part steps w1 Hfree Hfs Hh Hsteps Hren
                  | x k w1 Hfail Hk Hfree Hst Hfs Hh]; subst; cbn [fst snd].
  - exists []. split; [exact Hh|].
    assert (Hsame : same_outside_tmp r (fs w') (fs w)).
    { intros k _. rewrite Hfs. reflexivity. }
    split; [reflexivity|]. split; [|split].
    + intros s Hs. apply list_elem_of_singleton in Hs as ->. exact Hsame.
    + apply Hobj, Hsame.
    + intros en' [=].
  - exists steps. split; [exact Hh|].
    assert (Hsame : same_outside_tmp r (fs w') (fs w)) by (rewrite Hfs; apply Hins).
    split; [reflexivity|]. split; [|split].
    + intros s Hs. apply elem_of_cons in Hs as [->|Hs]; [exact Hsame|].
      destruct (Hsteps s Hs) as (p & ->). apply Hins.
    + apply Hobj, Hsame.
    + intros en' E. exists x. split; [exact Hfree|].
      rewrite Hfs, (Hren en' E). apply lookup_insert_eq.
  - eexists. split; [exact Hh|].
    intros s Hs. apply elem_of_cons in Hs as [->|Hs].
    + right. split; [reflexivity|]. rewrite Hk. exact Hst.
    + left. apply elem_of_cons in Hs as [->|Hs]; [apply Hins|].
      apply list_elem_of_singleton in Hs as ->. apply Hins.
Qed.


Lemma Put_publishes_by_rename_witness :
  let w := with_faults [None; None; None; Some {| cause := FCrossDevice; progress := 0 |}]
             fresh_world in
  fst (Put demo_repo hello w) = ([], Some (LinkError "rename" EXDEV)) /\
  ReadDir (fs (snd (Put demo_repo hello w))) (objects_dir demo_repo) = [] /\
  exists x, fs (snd (Put demo_repo hello w)) !! (tmp_dir demo_repo ++ [x])
            = Some (Regular (list_byte_of_string "hello")).
Proof.
  intros w.
  assert (E : Put demo_repo hello w
              = (([], Some (LinkError "rename" EXDEV)), snd (Put demo_repo hello w)))
    by (vm_compute; reflexivity).
  destruct (Put_publishes_by_rename demo_repo hello w _ _ E)
    as (steps & _ & _ & _ & _ & Hren).
  split; [vm_compute; reflexivity|]. split; [vm_compute; reflexivity|].
  destruct (Hren EXDEV eq_refl) as (x & _ & Hx). exists x. exact Hx.
Defined.

(** C6. In a calm world [Resolve] fails with a not-found error when the
    alias file is absent; on an alias file it reads the first
    [2 * Size] bytes only: fewer bytes, or bytes that are not hex text,
    give a corrupt-data error, and the hex text of an ID of digest length,
    whatever follows it, gives that ID.  Nothing is asked about [objects/],
    so an alias whose object is gone still resolves. *)
Theorem Resolve_reads_alias_text r name w :
  calm w ->
  (stat (fs w) (alias_file r name) = Fail ENOENT ->
   exists e, fst (Resolve r name w) = ([], Some e) /\ classify e = NotFoundError) /\
  (forall d, stat (fs w) (alias_file r name) = Ok (Regular d) ->
     (length d < Size (hash r) * 2 ->
      exists e, fst (Resolve r name w) = ([], Some e) /\ classify e = CorruptDataError) /\
     (Size (hash r) * 2 <= length d ->
      is_hex_text (take (Size (hash r) * 2) d) = false ->
      exists e, fst (Resolve r name w) = ([], Some e) /\ classify e = CorruptDataError) /\
     (forall id rest,
        length id = Size (hash r) ->
        d = list_byte_of_string (ID_String id) ++ rest ->
        fst (Resolve r name w) = (id, None) /\
        (stat (fs w) (object_file r id) = Fail ENOENT ->
         fst (Test r id w) = (false, None)))).
Proof.
  intros Hc. split.
  - intros Hst. eexists. split.
    + apply Resolve_open_fails; [apply next_fault_calm, Hc | exact Hst].
    + reflexivity.
  - intros d Hst. rewrite (Resolve_calm_regular r name d w Hc Hst).
    split; [|split].
    + intros Hshort. rewrite decide_False by lia. eexists. split; [reflexivity|].
      destruct d; reflexivity.
    + intros Hlong Hbad. rewrite decide_True by exact Hlong.
      destruct (hex_Decode (take (Size (hash r) * 2) d)) as [out [e|]] eqn:E.
      * exists e. split; [reflexivity|]. apply classify_decode_error.
        apply (hex_Decode_error (take (Size (hash r) * 2) d)). rewrite E. reflexivity.
      * assert (Hok : is_hex_text (take (Size (hash r) * 2) d) = true).
        { apply hex_Decode_ok_iff. rewrite E. reflexivity. }
        congruence.
    + intros id rest Hlen ->. split.
      * rewrite decide_True
          by (rewrite length_app; unfold ID_String; rewrite hex_Encode_length; lia).
        rewrite take_app_length' by (unfold ID_String; rewrite hex_Encode_length; lia).
        unfold ID_String. rewrite hex_Decode_Encode. reflexivity.
      * intros Hgone. rewrite Test_spec, (next_fault_calm _ Hc), Hgone. reflexivity.
Qed.

Lemma Resolve_reads_alias_text_witness :
  fst (Resolve demo_repo "nobody" linked_world) = ([], Some (PathError "open" ENOENT)) /\
  fst (Resolve demo_repo "greeting" dangling_world) = ([x05], None) /\
  fst (Test demo_repo [x05] dangling_world) = (false, None) /\
  exists e, fst (Resolve rehashed_repo "greeting" linked_world) = ([], Some e) /\
            classify e = CorruptDataError.
Proof.
  assert (Hc1 : calm linked_world) by reflexivity.
  assert (Hc2 : calm dangling_world) by reflexivity.
  destruct (Resolve_reads_alias_text demo_repo "greeting" dangling_world Hc2) as [_ Hreg].
  assert (Hst : stat (fs dangling_world) (alias_file demo_repo "greeting")
                = Ok (Regular (list_byte_of_string "05"))) by (vm_compute; reflexivity).
  destruct (Hreg _ Hst) as (_ & _ & Hgood).
  destruct (Hgood [x05] [] eq_refl eq_refl) as [HR HT].
  destruct (Resolve_reads_alias_text rehashed_repo "greeting" linked_world Hc1) as [_ Hreg'].
  assert (Hst' : stat (fs linked_world) (alias_file rehashed_repo "greeting")
                 = Ok (Regular (list_byte_of_string "05"))) by (vm_compute; reflexivity).
  destruct (Hreg' _ Hst') as (Hshort & _ & _).
  split; [vm_compute; reflexivity|]. split; [exact HR|].
  split; [apply HT; vm_compute; reflexivity|].
  apply Hshort. vm_compute. lia.
Defined.




(** C5 does not hold of [Link]: with the disk full at the write, the error
    of [Write] is dropped, [Link] returns nil, one byte of the two is in
    the alias file, and [Resolve] then fails. *)
Theorem Link_drops_write_error :
  let w := with_faults [None; None; None; Some {| cause := FNoSpace; progress := 1 |}]
             stored_world in
  let at_write := snd (os_Create (alias_file demo_repo "greeting")
                         (snd (Test demo_repo [x05] w))) in
  fst (File_Write (Some {| Name := alias_file demo_repo "greeting" |})
         (list_byte_of_string (hex_EncodeToString [x05])) at_write)
  = (1, Some (PathError "write" ENOSPC)) /\
  fst (Link demo_repo "greeting" [x05] w) = None /\
  stat (fs (snd (Link demo_repo "greeting" [x05] w))) (alias_file demo_repo "greeting")
  = Ok (Regular (list_byte_of_string "0")) /\
  fst (Resolve demo_repo "greeting" (snd (Link demo_repo "greeting" [x05] w)))
  = ([], Some io_ErrUnexpectedEOF).
Proof. repeat split; vm_compute; reflexivity. Qed.

End Claims.

(** ** Further properties: identifiers and names as text *)

Section Text.

Implicit Types (r : Dir) (id : ID) (name : string).

Lemma hex_digit_lower (v : byte) :
  is_lower_hex_digit (byte_of_ascii (table_at hextable (N.shiftr (Byte.to_N v) 4))) = true /\
  is_lower_hex_digit (byte_of_ascii (table_at hextable (N.land (Byte.to_N v) 15))) = true.
Proof. destruct v; vm_compute; split; reflexivity. Qed.

Lemma hex_Encode_cons (v : byte) id :
  list_byte_of_string (hex_EncodeToString (v :: id)) =
    byte_of_ascii (table_at hextable (N.shiftr (Byte.to_N v) 4))
    :: byte_of_ascii (table_at hextable (N.land (Byte.to_N v) 15))
    :: list_byte_of_string (hex_EncodeToString id).
Proof. reflexivity. Qed.

(** X1. The text of an ID is twice as long as the ID, consists of the
    digits [0-9a-f] only, and determines the ID. *)
Theorem ID_String_canonical (a b : ID) :
  length (list_byte_of_string (ID_String a)) = 2 * length a /\
  forallb is_lower_hex_digit (list_byte_of_string (ID_String a)) = true /\
  (ID_String a = ID_String b -> a = b).
Proof.
  unfold ID_String. split; [rewrite hex_Encode_length; lia|]. split.
  - induction a as [|v a IH]; [reflexivity|].
    rewrite hex_Encode_cons. cbn [forallb].
    destruct (hex_digit_lower v) as [H1 H2]. rewrite H1, H2, IH. reflexivity.
  - intros E.
    assert (H : hex_Decode (list_byte_of_string (hex_EncodeToString a)) = (b, None))
      by (rewrite E; apply hex_Decode_Encode).
    rewrite hex_Decode_Encode in H. congruence.
Qed.

Lemma ID_String_canonical_witness :
  length (list_byte_of_string (ID_String [x05; xff])) = 4 /\
  ([x05; xff] : ID) = [x05; xff].
Proof.
  destruct (ID_String_canonical [x05; xff] [x05; xff]) as (Hlen & _ & Hinj).
  split; [exact Hlen | apply Hinj; reflexivity].
Defined.

Lemma fromHexChar_lower (p : byte) (a : N) :
  fromHexChar p = Some a ->
  (a <? 16)%N = true /\ lower_byte p = byte_of_ascii (table_at hextable a).
Proof.
  destruct p; vm_compute; intros H; try discriminate H;
    injection H as <-; split; reflexivity.
Qed.

Lemma fromHexChar_of_lower (p : byte) (a : N) :
  fromHexChar (lower_byte p) = Some a -> fromHexChar p = Some a.
Proof. destruct p; vm_compute; intros H; (exact H || discriminate H). Qed.

Lemma small_N (P : N -> Prop) :
  (forall n : nat, n < 16 -> P (N.of_nat n)) ->
  forall a, (a <? 16)%N = true -> P a.
Proof.
  intros H a Ha. apply N.ltb_lt in Ha.
  rewrite <- (N2Nat.id a). apply H. lia.
Qed.

Lemma nibble_pack (a b : N) :
  (a <? 16)%N = true -> (b <? 16)%N = true ->
  N.shiftr (Byte.to_N (byte_of_N (N.lor (N.shiftl a 4) b))) 4 = a /\
  N.land (Byte.to_N (byte_of_N (N.lor (N.shiftl a 4) b))) 15 = b.
Proof.
  intros Ha. revert b. revert a Ha.
  apply (small_N (fun a => forall b, (b <? 16)%N = true -> _)).
  intros n Hn. apply small_N. intros m Hm.
  do 16 (destruct n as [|n]; [do 16 (destruct m as [|m]; [vm_compute; split; reflexivity|]); lia|]).
  lia.
Qed.

Lemma hex_Decode_lower (l out : list byte) :
  hex_Decode l = (out, None) ->
  map lower_byte l = list_byte_of_string (hex_EncodeToString out).
Proof.
  revert out. induction l as [|p|p q rest IH] using pairs_ind; intros out.
  - intros [= <-]. reflexivity.
  - cbn [hex_Decode]. destruct (fromHexChar p); discriminate.
  - cbn [hex_Decode].
    destruct (fromHexChar p) as [a|] eqn:Hp; [|discriminate].
    destruct (fromHexChar q) as [b|] eqn:Hq; [|discriminate].
    destruct (hex_Decode rest) as [o err]. intros [= <- ->].
    apply fromHexChar_lower in Hp as [Ha Hp], Hq as [Hb Hq].
    destruct (nibble_pack a b Ha Hb) as [E1 E2].
    rewrite hex_Encode_cons, E1, E2. cbn [map]. rewrite Hp, Hq, (IH o eq_refl).
    reflexivity.
Qed.

Lemma lower_hex_Decode id (l : list byte) :
  map lower_byte l = list_byte_of_string (hex_EncodeToString id) ->
  hex_Decode l = (id, None).
Proof.
  revert l. induction id as [|v id IH]; intros l.
  - destruct l; [reflexivity | discriminate].
  - rewrite hex_Encode_cons. destruct l as [|p [|q l]]; try discriminate.
    cbn [map]. intros [= Hp Hq Hl].
    destruct (hex_byte_roundtrip v) as (a & b & Ha & Hb & Hv).
    rewrite <- Hp in Ha. rewrite <- Hq in Hb.
    apply fromHexChar_of_lower in Ha, Hb.
    cbn [hex_Decode]. rewrite Ha, Hb, (IH l Hl), Hv. reflexivity.
Qed.

(** X2. [EqualString] answers [true] exactly for the texts that, put in
    lower case, are the text of the ID: the comparison ignores the case of
    hex digits and nothing else. *)
Theorem EqualString_ignores_case id (other : string) :
  ID_EqualString id other = (true, None) <->
  map lower_byte (list_byte_of_string other) = list_byte_of_string (ID_String id).
Proof.
  unfold ID_EqualString, hex_DecodeString, ID_String. split.
  - destruct (hex_Decode (list_byte_of_string other)) as [out [e|]] eqn:E;
      [discriminate|].
    intros [= Heq]. unfold ID_Equal, bytes_Equal in Heq.
    apply bool_decide_eq_true in Heq. subst out.
    apply hex_Decode_lower, E.
  - intros H. rewrite (lower_hex_Decode _ _ H), ID_Equal_refl. reflexivity.
Qed.

Lemma EqualString_ignores_case_witness :
  ID_EqualString [x0a; xff] "0AfF" = (true, None) /\
  map lower_byte (list_byte_of_string "0AFF") = list_byte_of_string (ID_String [x0a; xff]).
Proof.
  split.
  - apply (EqualString_ignores_case [x0a; xff] "0AfF"). reflexivity.
  - apply (EqualString_ignores_case [x0a; xff] "0AFF"). reflexivity.
Defined.

Lemma unescaped_char (c : ascii) :
  shouldEscape c = false ->
  Ascii.eqb c " " = false /\ c <> "+"%char /\ c <> "%"%char.
Proof.
  destruct c as [[] [] [] [] [] [] [] []]; vm_compute; intros H;
    try discriminate H; repeat split; discriminate.
Qed.

Lemma upperhex_inverse (c : ascii) :
  match fromHexChar (byte_of_ascii (table_at upperhex (N.shiftr (N_of_ascii c) 4))),
        fromHexChar (byte_of_ascii (table_at upperhex (N.land (N_of_ascii c) 15))) with
  | Some a, Some b => ascii_of_N (N.lor (N.shiftl a 4) b) = c
  | _, _ => False
  end.
Proof. destruct c as [[] [] [] [] [] [] [] []]; vm_compute; reflexivity. Qed.

Lemma upperhex_injective (c1 c2 : ascii) :
  table_at upperhex (N.shiftr (N_of_ascii c1) 4)
  = table_at upperhex (N.shiftr (N_of_ascii c2) 4) ->
  table_at upperhex (N.land (N_of_ascii c1) 15)
  = table_at upperhex (N.land (N_of_ascii c2) 15) ->
  c1 = c2.
Proof.
  intros E1 E2. pose proof (upperhex_inverse c1) as H1.
  pose proof (upperhex_inverse c2) as H2. rewrite E1, E2 in H1.
  destruct (fromHexChar _) as [a|]; [|contradiction].
  destruct (fromHexChar _) as [b|]; [|contradiction].
  congruence.
Qed.

Lemma escape_injective (n1 n2 : string) :
  url_QueryEscape n1 = url_QueryEscape n2 -> n1 = n2.
Proof.
  revert n2. induction n1 as [|c1 r1 IH]; intros n2 E.
  - symmetry in E. apply escape_empty in E. congruence.
  - destruct n2 as [|c2 r2]; [apply escape_empty in E; discriminate|].
    cbn [url_QueryEscape] in E.
    destruct (Ascii.eqb c1 " ") eqn:S1; destruct (Ascii.eqb c2 " ") eqn:S2.
    + apply Ascii.eqb_eq in S1, S2. injection E as E. f_equal; [congruence | auto].
    + destruct (shouldEscape c2) eqn:X2; [discriminate|].
      injection E as E1 E2. destruct (unescaped_char c2 X2) as (_ & Hp & _). congruence.
    + destruct (shouldEscape c1) eqn:X1; [discriminate|].
      injection E as E1 E2. destruct (unescaped_char c1 X1) as (_ & Hp & _). congruence.
    + destruct (shouldEscape c1) eqn:X1; destruct (shouldEscape c2) eqn:X2.
      * injection E as E1 E2 E3. f_equal; [apply upperhex_injective; assumption | auto].
      * injection E as E1 E2. destruct (unescaped_char c2 X2) as (_ & _ & Hp). congruence.
      * injection E as E1 E2. destruct (unescaped_char c1 X1) as (_ & _ & Hp). congruence.
      * injection E as E1 E2. f_equal; auto.
Qed.



Lemma alias_file_target r name : alias_file r name = Some (alias_target r name).
Proof.
  unfold alias_target. repeat case_decide; subst.
  - apply path_Join_three_empty; apply constant_dirs.
  - unfold alias_file. rewrite path_Join_three by (apply constant_dirs || reflexivity).
    reflexivity.
  - unfold alias_file. rewrite path_Join_three by (apply constant_dirs || reflexivity).
    cbn [Name_Encode url_QueryEscape]. unfold clean_step. cbn.
    unfold root_of, clean. reflexivity.
  - apply alias_file_plain; assumption.
Qed.

(** X4. The path that [Link], [Resolve] and [Unlink] build for a name
    always lies at or below the repository root, whatever characters the
    name has: it is an entry of [refs/] named by the encoded name, except
    for the empty name and [.], which lead to [refs/] itself, and [..],
    which leads to the root. *)
Theorem alias_path_contained r name :
  alias_file r name = Some (alias_target r name) /\
  (exists k, alias_target r name = root_of r ++ k /\ length k <= 2) /\
  (name <> "" -> name <> "." -> name <> ".." ->
   alias_target r name = refs_dir r ++ [Name_Encode name] /\
   slashless (Name_Encode name) = true).
Proof.
  split; [apply alias_file_target|]. split.
  - unfold alias_target, refs_dir. repeat case_decide.
    + exists [refPath]. split; [reflexivity | cbn; lia].
    + exists [refPath]. split; [reflexivity | cbn; lia].
    + exists []. split; [rewrite app_nil_r; reflexivity | cbn; lia].
    + exists [refPath; Name_Encode name].
      split; [rewrite <- app_assoc; reflexivity | cbn; lia].
  - intros H0 H1 H2. unfold alias_target.
    rewrite !decide_False by assumption.
    split; [reflexivity | apply escape_slashless].
Qed.

Lemma alias_path_contained_witness :
  alias_file demo_repo "../../etc/passwd"
  = Some ["repo"; "refs"; "..%2F..%2Fetc%2Fpasswd"] /\
  alias_target demo_repo ".." = ["repo"].
Proof.
  destruct (alias_path_contained demo_repo "../../etc/passwd") as (H & _ & Hplain).
  destruct Hplain as [Ht _]; try discriminate.
  split; [rewrite H, Ht; reflexivity | reflexivity].
Defined.

End Text.

(** ** Further facts: resolution off the path, calm and read-only runs *)

Section Frames.

Implicit Types (r : Dir) (w : world) (t : gmap fpath node) (id : ID) (name : string).

Lemma walk_same_on_prefixes t t' (cur rest : fpath) :
  (forall pre suf, rest = pre ++ suf -> t !! (cur ++ pre) = t' !! (cur ++ pre)) ->
  walk t cur rest = walk t' cur rest.
Proof.
  revert cur. induction rest as [|x rest IH]; intros cur H; cbn [walk].
  - pose proof (H [] [] eq_refl) as H0. rewrite app_nil_r in H0.
    rewrite H0. reflexivity.
  - pose proof (H [] (x :: rest) eq_refl) as H0. rewrite app_nil_r in H0.
    rewrite <- H0. destruct (t !! cur) as [[|data]|]; try reflexivity.
    apply IH. intros pre suf E. rewrite <- app_assoc.
    apply (H (x :: pre) suf). rewrite E. reflexivity.
Qed.

(** Changing the tree at [k] does not change what a path resolves to
    unless the path goes through [k]. *)
Lemma stat_insert_off_path t (p k : fpath) (n : node) :
  (forall s, p <> k ++ s) -> stat (<[k := n]> t) (Some p) = stat t (Some p).
Proof.
  intros Hoff. unfold stat. apply walk_same_on_prefixes. intros pre suf E.
  cbn [app]. apply lookup_insert_ne. intros ->. apply (Hoff suf). exact E.
Qed.

Lemma stat_delete_off_path t (p k : fpath) :
  (forall s, p <> k ++ s) -> stat (delete k t) (Some p) = stat t (Some p).
Proof.
  intros Hoff. unfold stat. apply walk_same_on_prefixes. intros pre suf E.
  cbn [app]. apply lookup_delete_ne. intros ->. apply (Hoff suf). exact E.
Qed.

Lemma off_path_under (R xs ys : fpath) :
  (forall s, xs <> ys ++ s) -> forall s, R ++ xs <> (R ++ ys) ++ s.
Proof.
  intros H s E. rewrite <- app_assoc in E. apply app_inv_head in E.
  apply (H s). exact E.
Qed.

(** The alias path of any name, relative to the root. *)
Lemma alias_target_under r name :
  exists xs, alias_target r name = root_of r ++ xs /\
             (xs = [] \/ xs = [refPath] \/
              (xs = [refPath; Name_Encode name] /\
               name <> "" /\ name <> "." /\ name <> "..")).
Proof.
  unfold alias_target, refs_dir. repeat case_decide.
  - exists [refPath]. auto.
  - exists [refPath]. auto.
  - exists []. rewrite app_nil_r. auto.
  - exists [refPath; Name_Encode name]. rewrite <- app_assoc. auto 10.
Qed.

Lemma object_target_under r id :
  exists xs, object_file r id = Some (root_of r ++ xs) /\
             ((xs = [objectPath] /\ id = []) \/
              (xs = [objectPath; ID_String id] /\ id <> [])).
Proof.
  destruct id as [|v id].
  - exists [objectPath]. split; [apply object_file_empty | auto].
  - exists [objectPath; ID_String (v :: id)]. split.
    + rewrite object_file_plain by discriminate. unfold objects_dir.
      rewrite <- app_assoc. reflexivity.
    + right. split; [reflexivity | discriminate].
Qed.

Lemma ID_String_inj (a b : ID) : ID_String a = ID_String b -> a = b.
Proof.
  unfold ID_String. intros E.
  assert (H : hex_Decode (list_byte_of_string (hex_EncodeToString a)) = (b, None))
    by (rewrite E; apply hex_Decode_Encode).
  rewrite hex_Decode_Encode in H. congruence.
Qed.

(** An object file is on the path of no alias and of no other object. *)
Lemma alias_off_object r name id :
  id <> [] ->
  forall s, alias_target r name <> (objects_dir r ++ [ID_String id]) ++ s.
Proof.
  intros Hid. destruct (alias_target_under r name) as (xs & -> & Hxs).
  replace (objects_dir r ++ [ID_String id]) with (root_of r ++ [objectPath; ID_String id])
    by (unfold objects_dir; rewrite <- app_assoc; reflexivity).
  apply off_path_under.
  intros s E. unfold refPath, objectPath in *.
  destruct Hxs as [-> | [-> | (-> & _)]]; cbn in E.
  all: discriminate E.
Qed.

Lemma object_off_object r id id' :
  id <> [] -> id' <> id ->
  forall k s, object_file r id' = Some k -> k <> (objects_dir r ++ [ID_String id]) ++ s.
Proof.
  intros Hid Hne k s Hk. destruct (object_target_under r id') as (xs & Hk' & Hxs).
  rewrite Hk in Hk'. injection Hk' as ->.
  replace (objects_dir r ++ [ID_String id]) with (root_of r ++ [objectPath; ID_String id])
    by (unfold objects_dir; rewrite <- app_assoc; reflexivity).
  apply off_path_under.
  intros s' E. destruct Hxs as [(-> & _) | (-> & _)]; cbn in E.
  - discriminate E.
  - injection E as E _. apply ID_String_inj in E. contradiction.
Qed.

Lemma object_off_alias r name id :
  name <> "" -> name <> "." -> name <> ".." ->
  forall k s, object_file r id = Some k -> k <> (refs_dir r ++ [Name_Encode name]) ++ s.
Proof.
  intros H0 H1 H2 k s Hk. destruct (object_target_under r id) as (xs & Hk' & Hxs).
  rewrite Hk in Hk'. injection Hk' as ->.
  replace (refs_dir r ++ [Name_Encode name]) with (root_of r ++ [refPath; Name_Encode name])
    by (unfold refs_dir; rewrite <- app_assoc; reflexivity).
  apply off_path_under.
  intros s' E. unfold refPath, objectPath in *.
  destruct Hxs as [(-> & _) | (-> & _)]; cbn in E.
  all: discriminate E.
Qed.

Lemma alias_off_alias r name name' :
  name <> "" -> name <> "." -> name <> ".." -> name' <> name ->
  forall s, alias_target r name' <> (refs_dir r ++ [Name_Encode name]) ++ s.
Proof.
  intros H0 H1 H2 Hne. destruct (alias_target_under r name') as (xs & -> & Hxs).
  replace (refs_dir r ++ [Name_Encode name]) with (root_of r ++ [refPath; Name_Encode name])
    by (unfold refs_dir; rewrite <- app_assoc; reflexivity).
  apply off_path_under.
  intros s E. destruct Hxs as [-> | [-> | (-> & _)]]; cbn in E.
  - discriminate E.
  - discriminate E.
  - injection E as E _. apply escape_injective in E. contradiction.
Qed.

(** Composing calm runs. *)
Lemma kc_ret {A : Type} (a : A) : keeps_calm (mret a).
Proof. intros w H. exact H. Qed.

Lemma kc_bind {A B : Type} (m : M A) (f : A -> M B) :
  keeps_calm m -> (forall a, keeps_calm (f a)) -> keeps_calm (m ≫= f).
Proof.
  intros Hm Hf w Hw. rewrite bind_run. specialize (Hm w Hw).
  destruct (m w) as [a w1]. apply Hf, Hm.
Qed.

Lemma kc_syscall : keeps_calm syscall.
Proof. intros w H. rewrite syscall_spec. cbn [snd]. rewrite (advance_calm _ H). exact H. Qed.

Lemma kc_get_fs : keeps_calm get_fs.
Proof. intros w H. exact H. Qed.

Lemma kc_put_fs t : keeps_calm (put_fs t).
Proof. intros w H. exact H. Qed.

Lemma kc_nextSuffix : keeps_calm nextSuffix.
Proof. intros w H. exact H. Qed.

Lemma kc_defer {A B : Type} (d : M B) (body : M A) :
  keeps_calm d -> keeps_calm body -> keeps_calm (defer d body).
Proof.
  intros Hd Hb. unfold defer. apply kc_bind; [exact Hb|]. intros a.
  apply kc_bind; [exact Hd|]. intros b. apply kc_ret.
Qed.

Ltac calm_step :=
  first
    [ apply kc_ret | apply kc_syscall | apply kc_get_fs | apply kc_put_fs
    | apply kc_nextSuffix | apply kc_bind | apply kc_defer
    | match goal with
      | |- forall _, _ => intros ?
      | |- keeps_calm (match ?x with _ => _ end) => destruct x
      | |- keeps_calm (if ?x then _ else _) => destruct x
      end ].

Ltac calm_run := repeat calm_step.

Lemma kc_os_Open p : keeps_calm (os_Open p).
Proof. unfold os_Open. calm_run. Qed.

Lemma kc_os_Create p : keeps_calm (os_Create p).
Proof. unfold os_Create. calm_run. Qed.

Lemma kc_os_OpenFile_excl p : keeps_calm (os_OpenFile_excl p).
Proof. unfold os_OpenFile_excl. calm_run. Qed.

Lemma kc_append_to f data : keeps_calm (append_to f data).
Proof. unfold append_to. calm_run. Qed.

Lemma kc_File_Write f data : keeps_calm (File_Write f data).
Proof. unfold File_Write. repeat first [apply kc_append_to | calm_step]. Qed.

Lemma kc_File_Close f : keeps_calm (File_Close f).
Proof. unfold File_Close. calm_run. Qed.

Lemma kc_os_Rename o n : keeps_calm (os_Rename o n).
Proof. unfold os_Rename. calm_run. Qed.

Lemma kc_os_Remove p : keeps_calm (os_Remove p).
Proof. unfold os_Remove. calm_run. Qed.

Lemma kc_io_ReadFull f n : keeps_calm (io_ReadFull f n).
Proof. unfold io_ReadFull. calm_run. Qed.

Lemma kc_io_Copy f src : keeps_calm (io_Copy f src).
Proof. unfold io_Copy. repeat first [apply kc_append_to | calm_step]. Qed.

Lemma kc_TempFile_loop n d prefix : keeps_calm (TempFile_loop n d prefix).
Proof.
  induction n as [|n IH]; cbn [TempFile_loop];
    repeat first [apply kc_os_OpenFile_excl | exact IH | calm_step].
Qed.

Lemma kc_MkdirAll_from rest : forall cur, keeps_calm (MkdirAll_from cur rest).
Proof.
  induction rest as [|c rest IH]; intros cur; cbn [MkdirAll_from];
    repeat first [apply IH | calm_step].
Qed.

Lemma kc_ioutil_TempFile dir prefix : keeps_calm (ioutil_TempFile dir prefix).
Proof. intros w. apply kc_TempFile_loop. Qed.

Lemma kc_Put r (rd : Reader) : keeps_calm (Put r rd).
Proof.
  unfold Put.
  repeat first [apply kc_ioutil_TempFile | apply kc_io_Copy | apply kc_File_Close
               | apply kc_os_Rename | calm_step].
Qed.

Lemma kc_Test r id : keeps_calm (Test r id).
Proof.
  unfold Test. repeat first [apply kc_os_Open | apply kc_File_Close | calm_step].
Qed.

Lemma kc_Link r name id : keeps_calm (Link r name id).
Proof.
  unfold Link.
  repeat first [apply kc_Test | apply kc_os_Create | apply kc_File_Close
               | apply kc_File_Write | calm_step].
Qed.

Lemma kc_os_MkdirAll p : keeps_calm (os_MkdirAll p).
Proof. destruct p as [q|]; [apply kc_MkdirAll_from | apply kc_ret]. Qed.

Lemma kc_create r : keeps_calm (create r).
Proof.
  unfold create. repeat first [apply kc_os_MkdirAll | calm_step].
Qed.

(** Composing read-only runs. *)
Lemma ro_ret {A : Type} (a : A) : read_only (mret a).
Proof. intros w. split; reflexivity. Qed.

Lemma ro_bind {A B : Type} (m : M A) (f : A -> M B) :
  read_only m -> (forall a, read_only (f a)) -> read_only (m ≫= f).
Proof.
  intros Hm Hf w. rewrite bind_run. destruct (Hm w) as [H1 H2].
  destruct (m w) as [a w1]. cbn [snd] in *. destruct (Hf a w1) as [H3 H4].
  split; congruence.
Qed.

Lemma ro_syscall : read_only syscall.
Proof. intros w. rewrite syscall_spec. split; reflexivity. Qed.

Lemma ro_get_fs : read_only get_fs.
Proof. intros w. split; reflexivity. Qed.

Lemma ro_defer {A B : Type} (d : M B) (body : M A) :
  read_only d -> read_only body -> read_only (defer d body).
Proof.
  intros Hd Hb. unfold defer. apply ro_bind; [exact Hb|]. intros a.
  apply ro_bind; [exact Hd|]. intros b. apply ro_ret.
Qed.

Ltac ro_step :=
  first
    [ apply ro_ret | apply ro_syscall | apply ro_get_fs | apply ro_bind | apply ro_defer
    | match goal with
      | |- forall _, _ => intros ?
      | |- read_only (match ?x with _ => _ end) => destruct x
      | |- read_only (if ?x then _ else _) => destruct x
      end ].

Ltac ro_run := repeat ro_step.

Lemma ro_os_Open p : read_only (os_Open p).
Proof. unfold os_Open. ro_run. Qed.

Lemma ro_File_Close f : read_only (File_Close f).
Proof. unfold File_Close. ro_run. Qed.

Lemma ro_io_ReadFull f n : read_only (io_ReadFull f n).
Proof. unfold io_ReadFull. ro_run. Qed.

End Frames.

(** ** Further properties: lookups, removal and refusals *)

Section Lookups.

Implicit Types (r : Dir) (w : world) (t : gmap fpath node) (id : ID) (name : string).

(** X5. [Test], [Get] and [Resolve] never change the tree, whatever the
    environment does to their system calls. *)
Theorem lookups_read_only r id name :
  read_only (Test r id) /\ read_only (Get r id) /\ read_only (Resolve r name).
Proof.
  split; [|split].
  - intros w. apply Test_fs.
  - intros w. rewrite Get_spec. destruct (next_fault w); [split; reflexivity|].
    destruct (stat (fs w) (object_file r id)); split; reflexivity.
  - unfold Resolve. apply ro_bind; [apply ro_os_Open|]. intros [f err].
    apply ro_defer; [apply ro_File_Close|].
    destruct err; [apply ro_ret|].
    apply ro_bind; [apply ro_io_ReadFull|]. intros [buf err].
    destruct err; [apply ro_ret|].
    destruct (hex_Decode buf) as [out [e|]]; apply ro_ret.
Qed.

(** X6. In one and the same world [Test] answers [true] exactly when
    [Get] returns a stream, and [(false, nil)] exactly when [Get] fails
    with an error that [os.IsNotExist] recognises. *)
Theorem Test_agrees_with_Get r id w :
  (fst (Test r id w) = (true, None) <->
   exists f, fst (Get r id w) = (Some f, None)) /\
  (fst (Test r id w) = (false, None) <->
   exists e, fst (Get r id w) = (None, Some e) /\ os_IsNotExist e = true).
Proof.
  rewrite Test_spec, Get_spec. destruct (next_fault w) as [gl|].
  - pose proof (glitch_not_ENOENT gl) as Hne. cbn [fst]. split; split.
    + discriminate.
    + intros (f & [=]).
    + discriminate.
    + intros (e & [= <-] & He). destruct (glitch_errno gl); cbn in He; congruence.
  - destruct (stat (fs w) (object_file r id)) as [n|e]; cbn [fst].
    + split; split; try discriminate; eauto.
      intros (e & [=] & _).
    + split; split.
      * destruct e; discriminate.
      * intros (f & [=]).
      * destruct e; try discriminate. intros _. eexists. split; reflexivity.
      * intros (e' & [= <-] & He). destruct e; cbn in He; (reflexivity || discriminate He).
Qed.

(** X9. A [Remove] or [Unlink] that returns an error has changed nothing;
    and when the path does not exist the error is of the not-found kind. *)
Theorem failed_removal_changes_nothing r id name w :
  (forall e w', Remove r id w = (Some e, w') -> fs w' = fs w) /\
  (forall e w', Unlink r name w = (Some e, w') -> fs w' = fs w) /\
  (next_fault w = None -> stat (fs w) (object_file r id) = Fail ENOENT ->
   exists e, fst (Remove r id w) = Some e /\ classify e = NotFoundError) /\
  (next_fault w = None -> stat (fs w) (alias_file r name) = Fail ENOENT ->
   exists e, fst (Unlink r name w) = Some e /\ classify e = NotFoundError).
Proof.
  assert (Hfail : forall p e w', os_Remove p w = (Some e, w') -> fs w' = fs w).
  { intros p e w'. rewrite os_Remove_spec.
    destruct (next_fault w); [intros [= _ <-]; reflexivity|].
    destruct p as [q|]; [|intros [= _ <-]; reflexivity].
    destruct (stat (fs w) (Some q)) as [[|data]|e0];
      [|discriminate|intros [= _ <-]; reflexivity].
    destruct q as [|c q]; [intros [= _ <-]; reflexivity|].
    destruct (ReadDir (fs w) (c :: q)); [discriminate|intros [= _ <-]; reflexivity]. }
  assert (Habsent : forall p, next_fault w = None -> stat (fs w) p = Fail ENOENT ->
             exists e, fst (os_Remove p w) = Some e /\ classify e = NotFoundError).
  { intros p Hq Hst. rewrite os_Remove_spec, Hq.
    destruct p as [q|]; [rewrite Hst|]; eexists; split; reflexivity. }
  split; [|split; [|split]].
  - intros e w'. apply Hfail.
  - intros e w'. apply Hfail.
  - apply Habsent.
  - apply Habsent.
Qed.

Lemma objects_dir_cons r : exists c q, objects_dir r = c :: q.
Proof.
  unfold objects_dir. destruct (root_of r) as [|c q]; cbn; eauto.
Qed.

Lemma refs_dir_cons r : exists c q, refs_dir r = c :: q.
Proof.
  unfold refs_dir. destruct (root_of r) as [|c q]; cbn; eauto.
Qed.

(** X10. [Remove] of the empty ID addresses [objects/] itself: when the
    store holds nothing the directory is removed, and when it holds
    anything the call is refused with ENOTEMPTY and changes nothing. *)
Theorem Remove_empty_ID r w :
  stat (fs w) (Some (objects_dir r)) = Ok Directory ->
  next_fault w = None ->
  (ReadDir (fs w) (objects_dir r) = [] ->
   fst (Remove r [] w) = None /\
   stat (fs (snd (Remove r [] w))) (Some (objects_dir r)) = Fail ENOENT) /\
  (ReadDir (fs w) (objects_dir r) <> [] ->
   fst (Remove r [] w) = Some (PathError "remove" ENOTEMPTY) /\
   fs (snd (Remove r [] w)) = fs w).
Proof.
  intros Hdir Hq. unfold Remove. fold (object_file r []).
  rewrite object_file_empty, os_Remove_spec, Hq, Hdir.
  destruct (objects_dir_cons r) as (c & q & E).
  rewrite E in *. split.
  - intros Hempty. rewrite Hempty. cbn [fst snd fs set_fs].
    split; [reflexivity|]. apply (stat_delete_self _ _ _ Hdir).
  - intros Hfull.
    destruct (ReadDir (fs w) (c :: q)) as [|x l]; [congruence|].
    split; reflexivity.
Qed.

(** X12. [Unlink] of the empty name or of [.] addresses [refs/] itself:
    with no alias left the directory is removed, otherwise the call is
    refused with ENOTEMPTY and changes nothing. *)
Theorem Unlink_of_refs_itself r name w :
  name = "" \/ name = "." ->
  stat (fs w) (Some (refs_dir r)) = Ok Directory ->
  next_fault w = None ->
  (ReadDir (fs w) (refs_dir r) = [] ->
   fst (Unlink r name w) = None /\
   stat (fs (snd (Unlink r name w))) (Some (refs_dir r)) = Fail ENOENT) /\
  (ReadDir (fs w) (refs_dir r) <> [] ->
   fst (Unlink r name w) = Some (PathError "remove" ENOTEMPTY) /\
   fs (snd (Unlink r name w)) = fs w).
Proof.
  intros Hname Hdir Hq. unfold Unlink. fold (alias_file r name).
  assert (Ht : alias_file r name = Some (refs_dir r)).
  { rewrite alias_file_target. unfold alias_target.
    destruct Hname as [-> | ->]; reflexivity. }
  rewrite Ht, os_Remove_spec, Hq, Hdir.
  destruct (refs_dir_cons r) as (c & q & E).
  rewrite E in *. split.
  - intros Hempty. rewrite Hempty. cbn [fst snd fs set_fs].
    split; [reflexivity|]. apply (stat_delete_self _ _ _ Hdir).
  - intros Hfull.
    destruct (ReadDir (fs w) (c :: q)) as [|x l]; [congruence|].
    split; reflexivity.
Qed.

(** X13. When the alias path of a name is a directory, as it is for the
    empty name, [.] and [..] in any repository, [Link] returns an error
    and leaves the tree as it was. *)
Theorem Link_onto_directory_refused r name id w :
  stat (fs w) (alias_file r name) = Ok Directory ->
  fst (Link r name id w) <> None /\ fs (snd (Link r name id w)) = fs w.
Proof.
  intros Hdir. unfold Link. rewrite bind_run, Test_spec.
  destruct (next_fault w) as [gl|]; [split; [discriminate | reflexivity]|].
  destruct (stat (fs w) (object_file r id)) as [n|e].
  - cbn [negb]. rewrite bind_run, os_Create_spec. fold (alias_file r name).
    destruct (next_fault (advance (advance w)));
      [rewrite defer_run; split; [discriminate|]|].
    + cbn [snd fst mret M_ret]. destruct (File_Close None _) eqn:E.
      cbn in E. injection E as _ <-. reflexivity.
    + change (fs (advance (advance w))) with (fs w).
      destruct (alias_file r name) as [q|]; [|discriminate Hdir].
      rewrite Hdir, defer_run. split; [discriminate|]. reflexivity.
  - destruct e; split; (discriminate || reflexivity).
Qed.

(** X23. [Link] returns nil only if the object path of the ID resolved
    when it was called: no alias is made for an ID that [Test] does not
    find, under any schedule of failures. *)
Theorem Link_only_to_present_ID r name id w :
  fst (Link r name id w) = None ->
  fst (Test r id w) = (true, None) /\
  exists n, stat (fs w) (object_file r id) = Ok n.
Proof.
  unfold Link. rewrite bind_run, Test_spec.
  destruct (next_fault w) as [gl|]; [discriminate|].
  destruct (stat (fs w) (object_file r id)) as [n|e].
  - intros _. split; [reflexivity | eauto].
  - destruct e; discriminate.
Qed.

End Lookups.

(** ** Further properties: what each update leaves alone *)

Section Untouched.

Implicit Types (r : Dir) (w : world) (t : gmap fpath node) (id : ID) (name : string).

Lemma Test_depends r id w w' :
  next_fault w = next_fault w' ->
  stat (fs w) (object_file r id) = stat (fs w') (object_file r id) ->
  fst (Test r id w) = fst (Test r id w').
Proof.
  intros Hq Hst. rewrite !Test_spec, Hq, Hst.
  destruct (next_fault w'); [reflexivity|].
  destruct (stat (fs w') (object_file r id)) as [n|[]]; reflexivity.
Qed.

Lemma Resolve_calm_directory r name w :
  calm w ->
  stat (fs w) (alias_file r name) = Ok Directory ->
  fst (Resolve r name w) =
    match Size (hash r) * 2 with
    | O => ([], None)
    | S _ => ([], Some (PathError "read" EISDIR))
    end.
Proof.
  intros Hc Hst. unfold Resolve.
  rewrite bind_run, os_Open_spec, (next_fault_calm _ Hc), (advance_calm _ Hc).
  fold (alias_file r name). rewrite Hst, defer_run. cbn [fst].
  rewrite bind_run. destruct (Size (hash r) * 2) as [|n].
  - reflexivity.
  - rewrite io_ReadFull_spec, (next_fault_calm _ Hc). cbn [Name].
    rewrite Hst. reflexivity.
Qed.

(** In a calm world the answer of [Resolve] is a function of what the
    alias path resolves to. *)
Lemma Resolve_depends r name w w' :
  calm w -> calm w' ->
  stat (fs w) (alias_file r name) = stat (fs w') (alias_file r name) ->
  fst (Resolve r name w) = fst (Resolve r name w').
Proof.
  intros Hc Hc' Hst.
  destruct (stat (fs w') (alias_file r name)) as [[|d]|e] eqn:E.
  - rewrite (Resolve_calm_directory r name w Hc Hst),
      (Resolve_calm_directory r name w' Hc' E). reflexivity.
  - rewrite (Resolve_calm_regular r name d w Hc Hst),
      (Resolve_calm_regular r name d w' Hc' E). reflexivity.
  - rewrite (Resolve_open_fails r name w e (next_fault_calm _ Hc) Hst),
      (Resolve_open_fails r name w' e (next_fault_calm _ Hc') E). reflexivity.
Qed.

Lemma calm_after {A : Type} (m : M A) (a : A) w w' :
  keeps_calm m -> calm w -> m w = (a, w') -> calm w'.
Proof. intros Hm Hc E. specialize (Hm w Hc). rewrite E in Hm. exact Hm. Qed.

(** What an update at an object file leaves alone. *)
Lemma object_update_frame r id w w' :
  id <> [] -> calm w -> calm w' ->
  (forall p, (forall s, p <> (objects_dir r ++ [ID_String id]) ++ s) ->
             stat (fs w') (Some p) = stat (fs w) (Some p)) ->
  (forall id', id' <> id -> fst (Test r id' w') = fst (Test r id' w)) /\
  (forall name, fst (Resolve r name w') = fst (Resolve r name w)).
Proof.
  intros Hid Hc Hc' Hframe. split.
  - intros id' Hne. apply Test_depends.
    + rewrite !next_fault_calm by assumption. reflexivity.
    + destruct (object_target_under r id') as (xs & Hk & _). rewrite Hk.
      apply Hframe. intros s. apply (object_off_object r id id' Hid Hne _ s Hk).
  - intros name. apply Resolve_depends; try assumption.
    rewrite alias_file_target. apply Hframe. apply alias_off_object, Hid.
Qed.

(** What an update at an alias file leaves alone. *)
Lemma alias_update_frame r name w w' :
  name <> "" -> name <> "." -> name <> ".." -> calm w -> calm w' ->
  (forall p, (forall s, p <> (refs_dir r ++ [Name_Encode name]) ++ s) ->
             stat (fs w') (Some p) = stat (fs w) (Some p)) ->
  (forall id, fst (Test r id w') = fst (Test r id w)) /\
  (forall name', name' <> name -> fst (Resolve r name' w') = fst (Resolve r name' w)).
Proof.
  intros H0 H1 H2 Hc Hc' Hframe. split.
  - intros id. apply Test_depends.
    + rewrite !next_fault_calm by assumption. reflexivity.
    + destruct (object_target_under r id) as (xs & Hk & _). rewrite Hk.
      apply Hframe. intros s. apply (object_off_alias r name id H0 H1 H2 _ s Hk).
  - intros name' Hne. apply Resolve_depends; try assumption.
    rewrite alias_file_target. apply Hframe. apply alias_off_alias; assumption.
Qed.

(** X7. A successful [Put] changes nothing but its own object: in a calm
    world every other ID is tested as before, every alias resolves as
    before, and [tmp/] holds what it held. *)
Theorem Put_keeps_the_rest r (rd : Reader) w id w' :
  calm w ->
  Put r rd w = ((id, None), w') ->
  id <> [] ->
  (forall id', id' <> id -> fst (Test r id' w') = fst (Test r id' w)) /\
  (forall name, fst (Resolve r name w') = fst (Resolve r name w)) /\
  (forall x, fs w' !! (tmp_dir r ++ [x]) = fs w !! (tmp_dir r ++ [x])).
Proof.
  intros Hc HP Hid.
  pose proof (calm_after _ _ _ _ (kc_Put r rd) Hc HP) as Hc'.
  apply Put_outcomes in HP.
  inversion HP as [| |x k w1 Hfail Hk Hfree Hst Hfs Hh]; subst.
  rewrite (object_file_plain r _ Hid) in Hk. injection Hk as <-.
  destruct (object_update_frame r _ w w' Hid Hc Hc') as [HT HR].
  { intros p Hoff. rewrite Hfs. apply stat_insert_off_path, Hoff. }
  split; [exact HT|]. split; [exact HR|].
  intros x'. rewrite Hfs. apply lookup_insert_ne.
  unfold objects_dir, tmp_dir. rewrite <- !app_assoc. intros E.
  apply app_inv_head in E. discriminate E.
Qed.

(** X8. A successful [Remove] takes away its own object only: in a calm
    world every other ID is tested as before and every alias, also one of
    the removed ID, resolves as before. *)
Theorem Remove_keeps_the_rest r id w w' :
  calm w ->
  Remove r id w = (None, w') ->
  id <> [] ->
  (forall id', id' <> id -> fst (Test r id' w') = fst (Test r id' w)) /\
  (forall name, fst (Resolve r name w') = fst (Resolve r name w)).
Proof.
  intros Hc HR Hid.
  pose proof (calm_after _ _ _ _ (kc_os_Remove _) Hc HR) as Hc'.
  unfold Remove in HR. fold (object_file r id) in HR.
  rewrite (object_file_plain r _ Hid), os_Remove_spec in HR.
  rewrite (next_fault_calm _ Hc), (advance_calm _ Hc) in HR.
  assert (Hfs : fs w' = delete (objects_dir r ++ [ID_String id]) (fs w)).
  { destruct (stat (fs w) (Some (objects_dir r ++ [ID_String id]))) as [[|d]|e];
      [| |discriminate].
    - destruct (objects_dir r ++ [ID_String id]) as [|c q] eqn:E; [discriminate|].
      destruct (ReadDir (fs w) (c :: q)); [|discriminate].
      injection HR as <-. reflexivity.
    - injection HR as <-. reflexivity. }
  apply (object_update_frame r id w w' Hid Hc Hc').
  intros p Hoff. rewrite Hfs. apply stat_delete_off_path, Hoff.
Qed.

(** X11. [Put] never makes [objects/]: when that path is not a directory,
    [Put] of content with a non-empty digest returns an error. *)
Theorem Put_needs_objects_dir r (rd : Reader) w :
  stat (fs w) (Some (objects_dir r)) <> Ok Directory ->
  Sum (hash r) (content rd) <> [] ->
  snd (fst (Put r rd w)) <> None.
Proof.
  intros Hno Hne Hnone.
  destruct (Put r rd w) as [[id err] w'] eqn:HP. cbn in Hnone. subst err.
  apply Put_outcomes in HP.
  inversion HP as [| |x k w1 Hfail Hk Hfree Hst Hfs Hh]; subst.
  rewrite (object_file_plain r _ Hne) in Hk. injection Hk as <-.
  apply stat_parent in Hst as [Hd _].
  rewrite Hfs, stat_insert_longer in Hd by (rewrite length_app; cbn; lia).
  contradiction.
Qed.

Lemma Link_success_needs r name id w :
  calm w ->
  name <> "" -> name <> "." -> name <> ".." ->
  fst (Link r name id w) = None ->
  fst (Test r id w) = (true, None) /\
  stat (fs w) (Some (refs_dir r)) = Ok Directory /\
  fs w !! (refs_dir r ++ [Name_Encode name]) <> Some Directory.
Proof.
  intros Hc H0 H1 H2. unfold Link.
  rewrite bind_run, Test_spec, (next_fault_calm _ Hc), !(advance_calm _ Hc).
  destruct (stat (fs w) (object_file r id)) as [n|e]; [|destruct e; discriminate].
  cbn [negb]. rewrite bind_run. fold (alias_file r name).
  rewrite (alias_file_plain r name H0 H1 H2).
  rewrite os_Create_spec, (next_fault_calm _ Hc), (advance_calm _ Hc).
  destruct (stat (fs w) (Some (refs_dir r ++ [Name_Encode name]))) as [[|d]|e] eqn:Hst.
  - rewrite defer_run. discriminate.
  - intros _. apply stat_parent in Hst as [Hd Hl].
    split; [reflexivity|]. split; [exact Hd | congruence].
  - rewrite parent_ready_snoc. rewrite stat_snoc in Hst.
    destruct (stat (fs w) (Some (refs_dir r))) as [[|d]|e'];
      [|rewrite defer_run; discriminate|rewrite defer_run; discriminate].
    intros _. split; [reflexivity|]. split; [reflexivity|].
    unfold lookup_node in Hst.
    destruct (fs w !! (refs_dir r ++ [Name_Encode name])); [discriminate | congruence].
Qed.

(** X14. A successful [Link] changes nothing but its own alias: in a calm
    world every ID is tested as before and every other name resolves as
    before. *)
Theorem Link_keeps_the_rest r name id w w' :
  calm w ->
  name <> "" -> name <> "." -> name <> ".." ->
  Link r name id w = (None, w') ->
  (forall id', fst (Test r id' w') = fst (Test r id' w)) /\
  (forall name', name' <> name ->
                 fst (Resolve r name' w') = fst (Resolve r name' w)).
Proof.
  intros Hc H0 H1 H2 HL.
  destruct (Link_success_needs r name id w Hc H0 H1 H2) as (HT & Hrefs & Hnd).
  { rewrite HL. reflexivity. }
  destruct (Link_calm r name id w Hc H0 H1 H2 HT Hrefs Hnd) as (w1 & HL1 & Hc1 & Hfs).
  rewrite HL in HL1. injection HL1 as <-.
  apply (alias_update_frame r name w w' H0 H1 H2 Hc Hc1).
  intros p Hoff. rewrite Hfs. apply stat_insert_off_path, Hoff.
Qed.

(** X16. A successful [Unlink] takes away its own alias only: in a calm
    world every ID is tested as before and every other name resolves as
    before. *)
Theorem Unlink_keeps_the_rest r name w w' :
  calm w ->
  name <> "" -> name <> "." -> name <> ".." ->
  Unlink r name w = (None, w') ->
  (forall id, fst (Test r id w') = fst (Test r id w)) /\
  (forall name', name' <> name ->
                 fst (Resolve r name' w') = fst (Resolve r name' w)).
Proof.
  intros Hc H0 H1 H2 HU.
  pose proof (calm_after _ _ _ _ (kc_os_Remove _) Hc HU) as Hc'.
  unfold Unlink in HU. fold (alias_file r name) in HU.
  rewrite (alias_file_plain r name H0 H1 H2), os_Remove_spec in HU.
  rewrite (next_fault_calm _ Hc), (advance_calm _ Hc) in HU.
  assert (Hfs : fs w' = delete (refs_dir r ++ [Name_Encode name]) (fs w)).
  { destruct (stat (fs w) (Some (refs_dir r ++ [Name_Encode name]))) as [[|d]|e];
      [| |discriminate].
    - destruct (refs_dir r ++ [Name_Encode name]) as [|c q] eqn:E; [discriminate|].
      destruct (ReadDir (fs w) (c :: q)); [|discriminate].
      injection HU as <-. reflexivity.
    - injection HU as <-. reflexivity. }
  apply (alias_update_frame r name w w' H0 H1 H2 Hc Hc').
  intros p Hoff. rewrite Hfs. apply stat_delete_off_path, Hoff.
Qed.

End Untouched.

(** ** Further properties: Link in two steps, the directory tree, PutFile *)

Section Composite.

Implicit Types (r : Dir) (w : world) (t : gmap fpath node) (id : ID) (name : string).

Lemma Link_calm_trace r name id w :
  calm w ->
  name <> "" -> name <> "." -> name <> ".." ->
  fst (Test r id w) = (true, None) ->
  stat (fs w) (Some (refs_dir r)) = Ok Directory ->
  fs w !! (refs_dir r ++ [Name_Encode name]) <> Some Directory ->
  exists w',
    Link r name id w = (None, w') /\
    history w' = [fs w'; <[refs_dir r ++ [Name_Encode name] := Regular []]> (fs w)]
                 ++ history w.
Proof.
  intros Hc H0 H1 H2 HT Hrefs Hnd. unfold Link.
  rewrite bind_run. rewrite Test_spec, (next_fault_calm _ Hc) in *.
  rewrite !(advance_calm _ Hc) in *.
  destruct (stat (fs w) (object_file r id)) as [n|e]; [|destruct e; discriminate].
  cbn [negb]. rewrite bind_run.
  fold (alias_file r name). rewrite (alias_file_plain r name H0 H1 H2).
  set (k := refs_dir r ++ [Name_Encode name]) in *.
  rewrite os_Create_spec, (next_fault_calm _ Hc), (advance_calm _ Hc).
  assert (Hsk : stat (fs w) (Some k) = lookup_node (fs w) k).
  { subst k. apply stat_child, Hrefs. }
  assert (Hpr : parent_ready (fs w) k = Ok tt).
  { subst k. rewrite parent_ready_snoc, Hrefs. reflexivity. }
  set (w1 := set_fs (<[k := Regular []]> (fs w)) w).
  assert (Hc1 : calm w1) by exact Hc.
  assert (Hrun : defer (File_Close (Some {| Name := Some k |}))
                   (File_Write (Some {| Name := Some k |})
                      (list_byte_of_string (hex_EncodeToString id))
                    ≫= (fun _ => mret None)) w1
                 = (None : option error,
                    set_fs (<[k := Regular (list_byte_of_string (hex_EncodeToString id))]>
                              (fs w1)) w1)).
  { rewrite defer_run, bind_run. unfold File_Write.
    rewrite bind_run, syscall_spec, (next_fault_calm _ Hc1), (advance_calm _ Hc1).
    rewrite bind_run, append_to_spec.
    assert (Hk1 : fs w1 !! k = Some (Regular [])) by apply lookup_insert_eq.
    rewrite Hk1. cbn [fst snd mret M_ret app].
    rewrite File_Close_spec. cbn [snd].
    set (w2 := set_fs _ w1). assert (Hc2 : calm w2) by exact Hc.
    rewrite (advance_calm _ Hc2). reflexivity. }
  rewrite Hsk. unfold lookup_node.
  destruct (fs w !! k) as [[|old]|] eqn:Hk; [congruence | |rewrite Hpr];
    fold w1; rewrite Hrun; eexists; (split; [reflexivity|]); reflexivity.
Qed.

(** X15. [Link] is a create followed by a write: also when it replaces an
    existing alias, the tree seen between the two has the alias file
    empty, and a [Resolve] at that moment fails with EOF. *)
Theorem Link_shows_empty_alias r name id w w' :
  calm w ->
  name <> "" -> name <> "." -> name <> ".." ->
  Link r name id w = (None, w') ->
  exists mid,
    history w' = fs w' :: mid :: history w /\
    stat mid (alias_file r name) = Ok (Regular []) /\
    (0 < Size (hash r) ->
     forall w0, calm w0 -> fs w0 = mid ->
                fst (Resolve r name w0) = ([], Some io_EOF)).
Proof.
  intros Hc H0 H1 H2 HL.
  destruct (Link_success_needs r name id w Hc H0 H1 H2) as (HT & Hrefs & Hnd).
  { rewrite HL. reflexivity. }
  destruct (Link_calm_trace r name id w Hc H0 H1 H2 HT Hrefs Hnd) as (w1 & HL1 & Hh).
  rewrite HL in HL1. injection HL1 as <-.
  eexists. split; [exact Hh|].
  assert (Hst : stat (<[refs_dir r ++ [Name_Encode name] := Regular []]> (fs w))
                  (alias_file r name) = Ok (Regular [])).
  { rewrite (alias_file_plain r name H0 H1 H2), stat_snoc.
    rewrite stat_insert_longer by (rewrite length_app; cbn; lia).
    rewrite Hrefs. unfold lookup_node. rewrite lookup_insert_eq. reflexivity. }
  split; [exact Hst|].
  intros Hsize w0 Hc0 Hfs0. rewrite <- Hfs0 in Hst.
  rewrite (Resolve_calm_regular r name [] w0 Hc0 Hst).
  rewrite decide_False by (cbn; lia). reflexivity.
Qed.

Lemma MkdirAll_from_present (rest : list string) :
  forall (cur : fpath) w,
    walk (fs w) cur rest = Ok Directory -> MkdirAll_from cur rest w = (None, w).
Proof.
  induction rest as [|c rest IH]; intros cur w; cbn [walk MkdirAll_from];
    rewrite bind_run; unfold get_fs;
    destruct (fs w !! cur) as [[|d]|]; try discriminate.
  - reflexivity.
  - apply IH.
Qed.

Lemma MkdirAll_from_grows (rest : list string) :
  forall (cur : fpath) w, fs w ⊆ fs (snd (MkdirAll_from cur rest w)).
Proof.
  induction rest as [|c rest IH]; intros cur w; cbn [MkdirAll_from];
    rewrite bind_run; unfold get_fs;
    destruct (fs w !! cur) as [[|d]|] eqn:Hc; try reflexivity.
  - rewrite bind_run, syscall_spec. destruct (next_fault w); [reflexivity|].
    rewrite bind_run. cbn. apply insert_subseteq, Hc.
  - apply IH.
  - rewrite bind_run, syscall_spec. destruct (next_fault w); [reflexivity|].
    rewrite bind_run. cbn [put_fs].
    etransitivity; [|apply IH]. cbn [fs advance]. apply insert_subseteq, Hc.
Qed.

Lemma os_MkdirAll_grows p w : fs w ⊆ fs (snd (os_MkdirAll p w)).
Proof. destruct p as [q|]; [apply MkdirAll_from_grows | reflexivity]. Qed.

Lemma path_Join_one (p : string) :
  path_Join [p] = if decide (p = "") then None else Some (clean (split_slash p)).
Proof.
  unfold path_Join. cbn [forallb flat_map]. rewrite andb_true_r, app_nil_r.
  case_decide as Hp.
  - rewrite bool_decide_eq_true_2 by exact Hp. reflexivity.
  - rewrite bool_decide_eq_false_2 by exact Hp. reflexivity.
Qed.

Lemma create_steps r w :
  create r w =
    (let '(e0, w0) := os_MkdirAll (path_Join [path r]) w in
     match e0 with
     | Some e => (Some e, w0)
     | None =>
         let '(e1, w1) := os_MkdirAll (Some (objects_dir r)) w0 in
         match e1 with
         | Some e => (Some e, w1)
         | None =>
             let '(e2, w2) := os_MkdirAll (Some (refs_dir r)) w1 in
             match e2 with
             | Some e => (Some e, w2)
             | None =>
                 let '(e3, w3) := os_MkdirAll (Some (tmp_dir r)) w2 in
                 match e3 with
                 | Some e => (Some e, w3)
                 | None => (None, w3)
                 end
             end
         end
     end).
Proof.
  unfold create. rewrite objects_dir_path, refs_dir_path, tmp_dir_path.
  rewrite bind_run. destruct (os_MkdirAll (path_Join [path r]) w) as [[e|] w0];
    [reflexivity|].
  rewrite bind_run. destruct (os_MkdirAll (Some (objects_dir r)) w0) as [[e|] w1];
    [reflexivity|].
  rewrite bind_run. destruct (os_MkdirAll (Some (refs_dir r)) w1) as [[e|] w2];
    [reflexivity|].
  rewrite bind_run. destruct (os_MkdirAll (Some (tmp_dir r)) w2) as [[e|] w3];
    reflexivity.
Qed.

(** X17. [create] is idempotent: run again on the tree it has made, in a
    calm world, it succeeds and changes nothing. *)
Theorem create_idempotent r w w1 :
  create r w = (None, w1) ->
  calm w1 ->
  create r w1 = (None, w1).
Proof.
  intros HC _. pose proof (create_ok r w w1 HC) as (Ho & Hr & Ht).
  assert (Hroot : stat (fs w1) (Some (root_of r)) = Ok Directory).
  { unfold objects_dir in Ho. apply stat_parent in Ho as [H _]. exact H. }
  assert (Hp : path_Join [path r] = Some (root_of r)).
  { rewrite path_Join_one. case_decide as Hp; [|reflexivity].
    rewrite create_steps, path_Join_one, decide_True in HC by exact Hp.
    discriminate HC. }
  rewrite create_steps, Hp. unfold os_MkdirAll, stat in *.
  rewrite !MkdirAll_from_present by assumption. reflexivity.
Qed.

(** X18. [create] never removes or replaces an entry: whatever the tree
    held before, it holds afterwards, whether [create] succeeds or not. *)
Theorem create_never_destroys r w (p : fpath) (n : node) :
  fs w !! p = Some n -> fs (snd (create r w)) !! p = Some n.
Proof.
  intros Hp. eapply lookup_weaken; [exact Hp|].
  rewrite create_steps.
  pose proof (os_MkdirAll_grows (path_Join [path r]) w) as G0.
  destruct (os_MkdirAll (path_Join [path r]) w) as [[e|] w0]; [exact G0|].
  pose proof (os_MkdirAll_grows (Some (objects_dir r)) w0) as G1.
  destruct (os_MkdirAll (Some (objects_dir r)) w0) as [[e|] w1];
    [etransitivity; eassumption|].
  pose proof (os_MkdirAll_grows (Some (refs_dir r)) w1) as G2.
  destruct (os_MkdirAll (Some (refs_dir r)) w1) as [[e|] w2];
    [etransitivity; [exact G0|]; etransitivity; eassumption|].
  pose proof (os_MkdirAll_grows (Some (tmp_dir r)) w2) as G3.
  cbn [snd] in *.
  assert (G : fs w ⊆ fs (snd (os_MkdirAll (Some (tmp_dir r)) w2))).
  { etransitivity; [exact G0|]. etransitivity; [exact G1|].
    etransitivity; eassumption. }
  destruct (os_MkdirAll (Some (tmp_dir r)) w2) as [[e|] w3]; exact G.
Qed.

(** X19. [NewDir] returns a repository exactly when it returns no error;
    the repository then has the path asked for and the hash function
    given, the path is not empty, and the root, [objects/], [refs/] and
    [tmp/] are directories. *)
Theorem NewDir_result (sha256_New : hash_Hash) (p : string) w od err w' :
  NewDir sha256_New p w = ((od, err), w') ->
  match err with
  | Some _ => od = None
  | None =>
      od = Some {| path := p; hash := sha256_New |} /\
      p <> "" /\
      forall d, od = Some d ->
        stat (fs w') (Some (root_of d)) = Ok Directory /\
        stat (fs w') (Some (objects_dir d)) = Ok Directory /\
        stat (fs w') (Some (refs_dir d)) = Ok Directory /\
        stat (fs w') (Some (tmp_dir d)) = Ok Directory
  end.
Proof.
  unfold NewDir. rewrite bind_run.
  set (d0 := {| path := p; hash := sha256_New |}).
  destruct (create d0 w) as [[e|] w1] eqn:HC.
  - intros [= <- <- <-]. reflexivity.
  - intros [= <- <- <-]. split; [reflexivity|]. split.
    + intros ->. rewrite create_steps in HC. discriminate HC.
    + intros d [= <-]. pose proof (create_ok d0 w w1 HC) as (Ho & Hr & Ht).
      repeat split; try assumption.
      unfold objects_dir in Ho. apply stat_parent in Ho as [H _]. exact H.
Qed.



Lemma hex_text_take (n : nat) id (rest : list byte) :
  n <= length id ->
  take (n * 2) (list_byte_of_string (hex_EncodeToString id) ++ rest)
  = list_byte_of_string (hex_EncodeToString (take n id)).
Proof.
  revert id. induction n as [|n IH]; intros id Hn; [reflexivity|].
  destruct id as [|v id]; [cbn in Hn; lia|].
  rewrite hex_Encode_cons. cbn [Nat.mul Nat.add app take].
  rewrite hex_Encode_cons. f_equal. f_equal.
  apply IH. cbn in Hn. lia.
Qed.

(** X21. [Resolve] decodes as many bytes as the current hash function has:
    on an alias file that holds the text of a longer ID, as after
    [SetHash] to a function with a shorter digest, it returns the leading
    bytes of that ID and no error. *)
Theorem Resolve_returns_prefix r name id (rest : list byte) w :
  calm w ->
  stat (fs w) (alias_file r name)
  = Ok (Regular (list_byte_of_string (ID_String id) ++ rest)) ->
  Size (hash r) <= length id ->
  fst (Resolve r name w) = (take (Size (hash r)) id, None).
Proof.
  intros Hc Hst Hlen. rewrite (Resolve_calm_regular r name _ w Hc Hst).
  unfold ID_String.
  rewrite decide_True by (rewrite length_app, hex_Encode_length; lia).
  rewrite hex_text_take by exact Hlen. rewrite hex_Decode_Encode. reflexivity.
Qed.

End Composite.

(** ** Runs of the further properties *)

Section Runs.

Lemma Test_agrees_with_Get_witness :
  fst (Test demo_repo [x05] stored_world) = (true, None) /\
  fst (Test demo_repo [x06] stored_world) = (false, None).
Proof.
  destruct (Test_agrees_with_Get demo_repo [x05] stored_world) as [[_ H1] _].
  destruct (Test_agrees_with_Get demo_repo [x06] stored_world) as [_ [_ H2]].
  split.
  - apply H1. eexists. vm_compute. reflexivity.
  - apply H2. eexists. vm_compute. split; reflexivity.
Defined.

Lemma failed_removal_changes_nothing_witness :
  fs (snd (Remove demo_repo [x06] stored_world)) = fs stored_world /\
  (exists e, fst (Unlink demo_repo "nobody" stored_world) = Some e /\
             classify e = NotFoundError).
Proof.
  destruct (failed_removal_changes_nothing demo_repo [x06] "nobody" stored_world)
    as (H1 & _ & _ & H4).
  split.
  - apply (H1 (PathError "remove" ENOENT)). vm_compute. reflexivity.
  - apply H4; vm_compute; reflexivity.
Defined.

Lemma Remove_empty_ID_witness :
  fst (Remove demo_repo [] fresh_world) = None /\
  fst (Remove demo_repo [] stored_world) = Some (PathError "remove" ENOTEMPTY).
Proof.
  assert (D1 : stat (fs fresh_world) (Some (objects_dir demo_repo)) = Ok Directory)
    by (vm_compute; reflexivity).
  assert (D2 : stat (fs stored_world) (Some (objects_dir demo_repo)) = Ok Directory)
    by (vm_compute; reflexivity).
  assert (Q1 : next_fault fresh_world = None) by (vm_compute; reflexivity).
  assert (Q2 : next_fault stored_world = None) by (vm_compute; reflexivity).
  destruct (Remove_empty_ID demo_repo fresh_world D1 Q1) as [H1 _].
  destruct (Remove_empty_ID demo_repo stored_world D2 Q2) as [_ H2].
  split.
  - apply H1. vm_compute. reflexivity.
  - apply H2. vm_compute. discriminate.
Defined.

Lemma Unlink_of_refs_itself_witness :
  stat (fs (snd (Unlink demo_repo "." fresh_world))) (Some (refs_dir demo_repo))
  = Fail ENOENT /\
  fst (Unlink demo_repo "" linked_world) = Some (PathError "remove" ENOTEMPTY).
Proof.
  assert (D1 : stat (fs fresh_world) (Some (refs_dir demo_repo)) = Ok Directory)
    by (vm_compute; reflexivity).
  assert (D2 : stat (fs linked_world) (Some (refs_dir demo_repo)) = Ok Directory)
    by (vm_compute; reflexivity).
  assert (Q1 : next_fault fresh_world = None) by (vm_compute; reflexivity).
  assert (Q2 : next_fault linked_world = None) by (vm_compute; reflexivity).
  destruct (Unlink_of_refs_itself demo_repo "." fresh_world (or_intror eq_refl) D1 Q1)
    as [H1 _].
  destruct (Unlink_of_refs_itself demo_repo "" linked_world (or_introl eq_refl) D2 Q2)
    as [_ H2].
  split.
  - apply H1. vm_compute. reflexivity.
  - apply H2. vm_compute. discriminate.
Defined.

Lemma Link_onto_directory_refused_witness :
  fst (Link demo_repo ".." [x05] stored_world) <> None /\
  fs (snd (Link demo_repo ".." [x05] stored_world)) = fs stored_world.
Proof.
  apply (Link_onto_directory_refused demo_repo ".." [x05] stored_world).
  vm_compute. reflexivity.
Defined.

Lemma Link_only_to_present_ID_witness :
  fst (Test demo_repo [x05] stored_world) = (true, None) /\
  exists n, stat (fs stored_world) (object_file demo_repo [x05]) = Ok n.
Proof.
  apply (Link_only_to_present_ID demo_repo "greeting" [x05] stored_world).
  vm_compute. reflexivity.
Defined.

Lemma Put_keeps_the_rest_witness :
  fst (Test demo_repo [x05] (snd (Put demo_repo hi linked_world)))
  = fst (Test demo_repo [x05] linked_world) /\
  fst (Resolve demo_repo "greeting" (snd (Put demo_repo hi linked_world)))
  = fst (Resolve demo_repo "greeting" linked_world).
Proof.
  assert (Hc : calm linked_world) by (vm_compute; reflexivity).
  assert (HP : Put demo_repo hi linked_world
               = (([x02], None), snd (Put demo_repo hi linked_world)))
    by (vm_compute; reflexivity).
  assert (Hid : ([x02] : ID) <> []) by discriminate.
  destruct (Put_keeps_the_rest demo_repo hi linked_world [x02] _ Hc HP Hid)
    as (H1 & H2 & _).
  split; [apply H1; discriminate | apply H2].
Defined.

Lemma Remove_keeps_the_rest_witness :
  fst (Resolve demo_repo "greeting" dangling_world) = ([x05], None) /\
  fst (Test demo_repo [x06] dangling_world) = fst (Test demo_repo [x06] linked_world).
Proof.
  assert (Hc : calm linked_world) by (vm_compute; reflexivity).
  assert (HR : Remove demo_repo [x05] linked_world = (None, dangling_world))
    by (vm_compute; reflexivity).
  assert (Hid : ([x05] : ID) <> []) by discriminate.
  destruct (Remove_keeps_the_rest demo_repo [x05] linked_world dangling_world Hc HR Hid)
    as (H1 & H2).
  split; [rewrite H2; vm_compute; reflexivity | apply H1; discriminate].
Defined.

Lemma Put_needs_objects_dir_witness :
  stat (fs emptied_world) (Some (objects_dir demo_repo)) = Fail ENOENT /\
  snd (fst (Put demo_repo hello emptied_world)) <> None.
Proof.
  split; [vm_compute; reflexivity|].
  apply (Put_needs_objects_dir demo_repo hello emptied_world);
    vm_compute; discriminate.
Defined.

Lemma Link_keeps_the_rest_witness :
  Link demo_repo "other" [x05] linked_world = (None, other_world) /\
  fst (Resolve demo_repo "greeting" other_world) = ([x05], None).
Proof.
  assert (HL : Link demo_repo "other" [x05] linked_world = (None, other_world))
    by (vm_compute; reflexivity).
  split; [exact HL|].
  assert (Hc : calm linked_world) by (vm_compute; reflexivity).
  assert (H0 : "other" <> "") by discriminate.
  assert (H1 : "other" <> ".") by discriminate.
  assert (H2 : "other" <> "..") by discriminate.
  destruct (Link_keeps_the_rest demo_repo "other" [x05] linked_world other_world
              Hc H0 H1 H2 HL) as (_ & H).
  rewrite H by discriminate. vm_compute. reflexivity.
Defined.

Lemma Unlink_keeps_the_rest_witness :
  fst (Unlink demo_repo "other" other_world) = None /\
  fst (Resolve demo_repo "greeting" (snd (Unlink demo_repo "other" other_world)))
  = ([x05], None).
Proof.
  assert (HU : Unlink demo_repo "other" other_world
               = (None, snd (Unlink demo_repo "other" other_world)))
    by (vm_compute; reflexivity).
  assert (Hc : calm other_world) by (vm_compute; reflexivity).
  assert (H0 : "other" <> "") by discriminate.
  assert (H1 : "other" <> ".") by discriminate.
  assert (H2 : "other" <> "..") by discriminate.
  destruct (Unlink_keeps_the_rest demo_repo "other" other_world _ Hc H0 H1 H2 HU)
    as (_ & H).
  split; [vm_compute; reflexivity|].
  rewrite H by discriminate. vm_compute. reflexivity.
Defined.

Lemma Link_shows_empty_alias_witness :
  stat (fs linked_world) (alias_file demo_repo "greeting")
  = Ok (Regular (list_byte_of_string "05")) /\
  exists mid,
    history relinked_world = fs relinked_world :: mid :: history linked_world /\
    stat mid (alias_file demo_repo "greeting") = Ok (Regular []).
Proof.
  split; [vm_compute; reflexivity|].
  assert (Hc : calm linked_world) by (vm_compute; reflexivity).
  assert (HL : Link demo_repo "greeting" [x05] linked_world = (None, relinked_world))
    by (vm_compute; reflexivity).
  assert (H0 : "greeting" <> "") by discriminate.
  assert (H1 : "greeting" <> ".") by discriminate.
  assert (H2 : "greeting" <> "..") by discriminate.
  destruct (Link_shows_empty_alias demo_repo "greeting" [x05] linked_world relinked_world
              Hc H0 H1 H2 HL) as (mid & Hh & Hst & _).
  exists mid. split; assumption.
Defined.

Lemma create_idempotent_witness :
  create demo_repo bare_world = (None, fresh_world) /\
  create demo_repo fresh_world = (None, fresh_world).
Proof.
  assert (HC : create demo_repo bare_world = (None, fresh_world))
    by (vm_compute; reflexivity).
  split; [exact HC|].
  apply (create_idempotent demo_repo bare_world fresh_world HC). vm_compute. reflexivity.
Defined.

Lemma create_never_destroys_witness :
  fst (create demo_repo blocked_world) = Some (PathError "mkdir" ENOTDIR) /\
  fs (snd (create demo_repo blocked_world)) !! ["repo"; "objects"] = Some (Regular []).
Proof.
  split; [vm_compute; reflexivity|].
  apply (create_never_destroys demo_repo blocked_world). vm_compute. reflexivity.
Defined.

Lemma NewDir_result_witness :
  exists d, fst (NewDir length_hash "/repo" bare_world) = (Some d, None) /\
            stat (fs (snd (NewDir length_hash "/repo" bare_world))) (Some (tmp_dir d))
            = Ok Directory.
Proof.
  pose proof (NewDir_result length_hash "/repo" bare_world
                (Some {| path := "/repo"; hash := length_hash |}) None
                (snd (NewDir length_hash "/repo" bare_world))) as H.
  destruct H as (_ & _ & H); [vm_compute; reflexivity|].
  eexists. split; [vm_compute; reflexivity|].
  apply (H _ eq_refl).
Defined.


Lemma Resolve_returns_prefix_witness :
  stat (fs wide_world) (alias_file demo_repo "wide")
  = Ok (Regular (list_byte_of_string "0005")) /\
  fst (Resolve rehashed_repo "wide" wide_world) = ([x00; x05], None) /\
  fst (Resolve demo_repo "wide" wide_world) = ([x00], None).
Proof.
  assert (Hst : stat (fs wide_world) (alias_file demo_repo "wide")
                = Ok (Regular (list_byte_of_string (ID_String [x00; x05]) ++ [])))
    by (vm_compute; reflexivity).
  split; [vm_compute; reflexivity|]. split; [vm_compute; reflexivity|].
  apply (Resolve_returns_prefix demo_repo "wide" [x00; x05] [] wide_world);
    [vm_compute; reflexivity | exact Hst | vm_compute; lia].
Defined.

End Runs.

(** ** A further property: resolving a name that leads to a directory *)

Section DirectoryName.

Implicit Types (r : Dir) (w : world) (name : string).

(** X22. For the empty name and [.] the alias path is [refs/] itself, so
    in a calm world [Resolve] opens the directory and, with a hash function
    of positive digest size, fails on the read with EISDIR: an error of the
    I/O kind, not the not-found kind, although no such alias exists. *)
Theorem Resolve_of_refs_itself r name w :
  name = "" \/ name = "." ->
  calm w ->
  stat (fs w) (Some (refs_dir r)) = Ok Directory ->
  0 < Size (hash r) ->
  fst (Resolve r name w) = ([], Some (PathError "read" EISDIR)) /\
  classify (PathError "read" EISDIR) = IOError.
Proof.
  intros Hname Hc Hdir Hsize.
  assert (Ht : alias_file r name = Some (refs_dir r)).
  { rewrite alias_file_target. unfold alias_target.
    destruct Hname as [-> | ->]; reflexivity. }
  rewrite <- Ht in Hdir.
  rewrite (Resolve_calm_directory r name w Hc Hdir).
  destruct (Size (hash r)) as [|n]; [lia|]. split; reflexivity.
Qed.

Lemma Resolve_of_refs_itself_witness :
  fst (Resolve demo_repo "." fresh_world) = ([], Some (PathError "read" EISDIR)) /\
  fst (Resolve demo_repo "" linked_world) = ([], Some (PathError "read" EISDIR)).
Proof.
  split.
  - apply (Resolve_of_refs_itself demo_repo "." fresh_world);
      [right; reflexivity | vm_compute; reflexivity | vm_compute; reflexivity
      | vm_compute; lia].
  - apply (Resolve_of_refs_itself demo_repo "" linked_world);
      [left; reflexivity | vm_compute; reflexivity | vm_compute; reflexivity
      | vm_compute; lia].
Defined.

End DirectoryName.
